(** * The Consul key-value tree mapper of [internal/consul/kv.go]

    A shallow embedding of [ListMap], [PutMap] and [PutStr] together with
    the few functions of Go's [strings] and [fmt] packages they call, and
    the properties of the mapping between the flat store and the nested
    maps that they implement. *)

From Stdlib Require Import Ascii.
From stdpp Require Import base strings gmap list.

#[local] Set Warnings "-register-all,-clear-no-such-hyp".

(** ** Go strings

    A Go [string] is a sequence of bytes; so is a Rocq [string].  The
    functions below follow the documented behaviour of the [strings]
    package at the argument shapes [kv.go] uses. *)

(** [strings.HasPrefix(s, prefix)]. *)
Fixpoint HasPrefix (s prefix : string) {struct prefix} : bool :=
  match prefix, s with
  | EmptyString, _ => true
  | String p prefix', String c s' => bool_decide (c = p) && HasPrefix s' prefix'
  | String _ _, EmptyString => false
  end.

(** [strings.HasSuffix(s, suffix)]: some tail of [s] is [suffix]. *)
Fixpoint HasSuffix (s suffix : string) : bool :=
  bool_decide (s = suffix) ||
  match s with
  | EmptyString => false
  | String _ s' => HasSuffix s' suffix
  end.

(** [s[n:]]. *)
Fixpoint string_drop (n : nat) (s : string) : string :=
  match n, s with
  | S n', String _ s' => string_drop n' s'
  | _, _ => s
  end.

(** [strings.TrimPrefix(s, prefix)]: [s] without the leading [prefix], or
    [s] itself when it does not start with [prefix]. *)
Definition TrimPrefix (s prefix : string) : string :=
  if HasPrefix s prefix then string_drop (String.length prefix) s else s.

(** [strings.IndexByte(s, c) >= 0]: the byte [c] occurs in [s]. *)
Fixpoint has_byte (s : string) (c : ascii) : bool :=
  match s with
  | EmptyString => false
  | String d s' => bool_decide (c = d) || has_byte s' c
  end.

Fixpoint TrimLeft (s cutset : string) : string :=
  match s with
  | EmptyString => EmptyString
  | String c s' => if has_byte cutset c then TrimLeft s' cutset else s
  end.

Fixpoint TrimRight (s cutset : string) : string :=
  match s with
  | EmptyString => EmptyString
  | String c s' =>
      match TrimRight s' cutset with
      | EmptyString => if has_byte cutset c then EmptyString else String c EmptyString
      | t => String c t
      end
  end.

(** [strings.Trim(s, cutset)]: all leading and trailing bytes of [s] that
    occur in [cutset] removed. *)
Definition Trim (s cutset : string) : string :=
  TrimRight (TrimLeft s cutset) cutset.

(** [strings.Split(s, sep)] for a one-byte separator: the pieces of [s]
    between the occurrences of [sep]; one more piece than separators, so
    the split of the empty string is the single empty piece. *)
Fixpoint Split (s : string) (sep : ascii) : list string :=
  match s with
  | EmptyString => [EmptyString]
  | String c s' =>
      if decide (c = sep) then EmptyString :: Split s' sep
      else match Split s' sep with
           | piece :: pieces => String c piece :: pieces
           | [] => [String c EmptyString]
           end
  end.

(** [fmt.Sprintf("%s/%s", a, b)] and [fmt.Sprintf("%s/", a)]. *)
Definition Sprintf_s_slash_s (a b : string) : string := a +:+ "/" +:+ b.
Definition Sprintf_s_slash (a : string) : string := a +:+ "/".

(** ** Values

    The values of type [interface{}], restricted to the dynamic types
    the mapper distinguishes: strings, [map[string]interface{}], and values
    that are neither (numbers, booleans, nil).  Structs and slices are left
    out. *)

Inductive Any : Type :=
  | Str (s : string)
  | Map (m : gmap string Any)
  | Int (n : Z)
  | Bool (b : bool)
  | Nil.

(** The number of constructors of a value: the measure for induction. *)
Fixpoint Any_size (v : Any) : nat :=
  match v with
  | Map m => S (map_fold (λ _ v' acc, Any_size v' + acc) 0 m)
  | _ => 1
  end.

(** [consulApi.KVPair], with the fields the mapper touches; [Value] is a
    byte slice, converted from and to [string] without change. *)
Record KVPair : Type := mkKVPair { Key : string; Value : string }.

(** A Go [error], by its message. *)
Definition error : Type := string.

(** [errors.Wrap(err, message)]. *)
Definition Wrap (err : error) (message : string) : error :=
  message +:+ ": " +:+ err.

(** The [kv] struct: the function fields [list] and [put] are the only
    access to the backend, whose state [B] they read and update. *)
Record kv (B : Type) : Type := mkKv {
  list_ : string → B → error + list KVPair;
  put : KVPair → B → B * option error;
}.
Arguments list_ {B} _ _ _.
Arguments put {B} _ _ _.

(** The outcome of a call: the pair Go returns, or a panic. *)
Inductive outcome (A : Type) : Type :=
  | Returns (a : A) (err : option error)
  | Panics.
Arguments Returns {A} _ _.
Arguments Panics {A}.

(** ** ListMap *)

(** [result] is a tree of maps in which every nested map is referred to
    by its parent alone, and [currentItem] refers to one of these maps or
    is the nil map.  A reference is the list of keys that lead from
    [result] to the map. *)
Inductive mapref : Type :=
  | NilMap
  | MapAt (path : list string).

(** The map at the end of a path. *)
Fixpoint deref (path : list string) (result : gmap string Any)
    : option (gmap string Any) :=
  match path with
  | [] => Some result
  | key :: path' =>
      match result !! key with
      | Some (Map item) => deref path' item
      | _ => None
      end
  end.

(** [currentItem[key]], [None] when the key is absent; the nil map can be
    read, and has no key. *)
Definition index (currentItem : mapref) (key : string)
    (result : gmap string Any) : option Any :=
  match currentItem with
  | NilMap => None
  | MapAt path => deref path result ≫= (λ m, m !! key)
  end.

(** The tree after [m[key] = v] on the map [m] at the end of a path. *)
Fixpoint assign_at (path : list string) (key : string) (v : Any)
    (result : gmap string Any) : gmap string Any :=
  match path with
  | [] => <[key := v]> result
  | k :: path' =>
      match result !! k with
      | Some (Map item) => <[k := Map (assign_at path' key v item)]> result
      | _ => result
      end
  end.

(** [currentItem[key] = v]: an assignment to an entry in the nil map is a
    run-time panic, [None]. *)
Definition assign (currentItem : mapref) (key : string) (v : Any)
    (result : gmap string Any) : option (gmap string Any) :=
  match currentItem with
  | NilMap => None
  | MapAt path => Some (assign_at path key v result)
  end.

(** [item, _ := currentItem[key].(map[string]interface{})]: the nested
    map, or the nil map when the value is not a map. *)
Definition item_of (currentItem : mapref) (key : string)
    (result : gmap string Any) : mapref :=
  match currentItem, index currentItem key result with
  | MapAt path, Some (Map _) => MapAt (path ++ [key])
  | _, _ => NilMap
  end.

(** The inner loop [for i, key := range keys]; [rest] is empty at the
    last index.  The result is the tree when the loop is left. *)
Fixpoint ListMap_keys (keys : list string) (value : string)
    (result : gmap string Any) (currentItem : mapref)
    : option (gmap string Any) :=
  match keys with
  | [] => Some result
  | key :: rest =>
      if decide (String.length key = 0) then Some result
      else match rest with
      | [] => assign currentItem key (Str value) result
      | _ :: _ =>
          result1 ←
            match index currentItem key result with
            | Some _ => Some result
            | None => assign currentItem key (Map ∅) result
            end;
          ListMap_keys rest value result1 (item_of currentItem key result1)
      end
  end.

(** [offset] with the separator appended when missing. *)
Definition normalize_offset (offset : string) : string :=
  if negb (HasSuffix offset "/") then Sprintf_s_slash offset else offset.

(** [modEntry]: the key, trimmed, without the offset in front. *)
Definition modEntry (offset : string) (entry : KVPair) : string :=
  TrimPrefix (Trim (Key entry) " ") offset.

(** One iteration of [for _, entry := range entries], [offset] being
    normalized already: [currentItem = result], and the inner loop. *)
Definition ListMap_entry (offset : string) (result : gmap string Any)
    (entry : KVPair) : option (gmap string Any) :=
  let m := modEntry offset entry in
  if decide (String.length m = 0) then Some result
  else ListMap_keys (Split m "/") (Value entry) result (MapAt []).

(** The loop [for _, entry := range entries]. *)
Fixpoint ListMap_loop (offset : string) (entries : list KVPair)
    (result : gmap string Any) : option (gmap string Any) :=
  match entries with
  | [] => Some result
  | entry :: entries' =>
      result' ← ListMap_entry offset result entry;
      ListMap_loop offset entries' result'
  end.

(** [ListMap]: the entries are listed, the offset is normalized, and the
    loop runs on a fresh map. *)
Definition ListMap {B} (k : kv B) (prefix offset : string) (b : B)
    : outcome (option (gmap string Any)) :=
  match list_ k prefix b with
  | inl err => Returns None (Some (Wrap err "could not query Consul for KV values"))
  | inr entries =>
      match ListMap_loop (normalize_offset offset) entries ∅ with
      | Some result => Returns (Some result) None
      | None => Panics
      end
  end.

(** ** PutMap *)

(** [PutStr]: one [put], its error wrapped. *)
Definition PutStr {B} (k : kv B) (prefix value : string) (b : B)
    : B * option error :=
  let '(b', err) := put k (mkKVPair prefix value) b in
  match err with
  | Some e => (b', Some (Wrap e "Error storing a new value in the KV storage"))
  | None => (b', None)
  end.

(** [mapstructure.Decode(value, &mapInterface)] into a freshly made map: a
    map is copied entry by entry, nil leaves the target untouched, and
    anything else is refused with an error.  The first component is
    [mapInterface] after the call. *)
Definition Decode (value : Any) : gmap string Any * option error :=
  match value with
  | Map m => (m, None)
  | Nil => (∅, None)
  | Str _ => (∅, Some "'' expected a map, got 'string'")
  | Int _ => (∅, Some "'' expected a map, got 'int'")
  | Bool _ => (∅, Some "'' expected a map, got 'bool'")
  end.

(** Go leaves the order in which [range] visits the keys of a map
    unspecified and varies it between runs.  A [schedule] records the
    choices of one run: the keys in the order the [range] statement of one
    [PutMap] call yields them, each with the schedule of the recursive call
    made for it. *)
Inductive schedule : Type :=
  | Range (order : list (string * schedule)).

(** The loop [for key, value := range data] of [PutMap], the keys coming
    in the order of the schedule; [PutMap_rec] is the recursive call.  A
    key of the schedule that is not in [data] is never yielded by [range],
    and is passed over. *)
Definition PutMap_range {B} (k : kv B)
    (PutMap_rec : schedule → string → gmap string Any → B → B * option error)
    (prefix : string) (data : gmap string Any)
    : list (string * schedule) → B → B * option error :=
  fix loop (order : list (string * schedule)) (b : B) {struct order} :=
    match order with
    | [] => (b, None)
    | (key, s') :: order' =>
        match data !! key with
        | None => loop order' b
        | Some (Str c) =>
            let '(b1, err) := PutStr k (Sprintf_s_slash_s prefix key) c b in
            match err with
            | Some e => (b1, Some e)
            | None => loop order' b1
            end
        | Some value =>
            let mapInterface := (Decode value).1 in
            let '(b1, err) :=
              PutMap_rec s' (Sprintf_s_slash_s prefix key) mapInterface b in
            match err with
            | Some e => (b1, Some e)
            | None => loop order' b1
            end
        end
    end.

(** [PutMap], run under a schedule. *)
Fixpoint PutMap {B} (k : kv B) (s : schedule) (prefix : string)
    (data : gmap string Any) (b : B) {struct s} : B * option error :=
  match s with
  | Range order => PutMap_range k (PutMap k) prefix data order b
  end.

(** A schedule is one the runtime can produce for [data] when its keys
    are the keys of [data], each once, and the same holds below. *)
Fixpoint schedule_forb (s : schedule) (v : Any) {struct s} : bool :=
  match s with
  | Range order =>
      let data := (Decode v).1 in
      bool_decide (NoDup order.*1) &&
      bool_decide (dom data = list_to_set order.*1) &&
      forallb (λ ks : string * schedule,
                 match data !! ks.1 with
                 | Some (Str _) => true
                 | Some v' => schedule_forb ks.2 v'
                 | None => false
                 end) order
  end.

(** [s] is a schedule of a run on [data]. *)
Definition schedules (s : schedule) (data : gmap string Any) : Prop :=
  schedule_forb s (Map data) = true.

(** A schedule that follows the order of [map_to_list]. *)
Fixpoint default_schedule (v : Any) : schedule :=
  match v with
  | Map m => Range (map_fold (λ key v' acc, (key, default_schedule v') :: acc) [] m)
  | _ => Range []
  end.

(** ** Backends *)

(** A backend that records: [put] appends the pair to a log, and [list]
    returns the logged pairs whose key starts with the prefix. *)
Definition recorder : kv (list KVPair) :=
  {| list_ := λ prefix log, inr (filter (λ p, HasPrefix (Key p) prefix = true) log);
     put := λ p log, (log ++ [p], None) |}.

(** A backend that refuses the writes to the key [bad] and logs the
    others. *)
Definition flaky (bad : string) : kv (list KVPair) :=
  {| list_ := list_ recorder;
     put := λ p log,
       if decide (Key p = bad) then (log, Some "connection refused")
       else (log ++ [p], None) |}.

(** ** Trees, paths and leaves *)

(** The value reached from [v] along the keys [p]. *)
Fixpoint get_path (p : list string) (v : Any) : option Any :=
  match p with
  | [] => Some v
  | key :: p' =>
      match v with
      | Map m => m !! key ≫= get_path p'
      | _ => None
      end
  end.

(** The leaf paths tagged with the key they lie under. *)
Definition under (key : string) (pvs : list (list string * string))
    : list (list string * string) :=
  prod_map (cons key) id <$> pvs.

(** The string leaves of a value, each with the keys that lead to it. *)
Fixpoint leaves (v : Any) : list (list string * string) :=
  match v with
  | Str s => [([], s)]
  | Map m =>
      map_fold (λ key v' acc, (prod_map (cons key) id <$> leaves v') ++ acc) [] m
  | _ => []
  end.

(** [P] holds of every field, at every depth. *)
Fixpoint tree_forall (P : string → Any → bool) (v : Any) : bool :=
  match v with
  | Map m => map_fold (λ key v' acc, P key v' && tree_forall P v' && acc) true m
  | _ => true
  end.

(** A string or a map. *)
Definition tree_value (v : Any) : bool :=
  match v with Str _ | Map _ => true | _ => false end.

(** Every field is a string or a map: the trees [ListMap] builds. *)
Definition is_tree : Any → bool :=
  tree_forall (λ _ v, match v with Str _ | Map _ => true | _ => false end).

(** No nested map is empty. *)
Definition compact : Any → bool :=
  tree_forall (λ _ v, match v with Map m => bool_decide (size m ≠ 0) | _ => true end).

(** No key is the empty string. *)
Definition keys_nonempty : Any → bool :=
  tree_forall (λ key _, bool_decide (key ≠ "")).

(** Keys that survive the trip through the flat store: not empty, free of
    the separator, and at a leaf not ending with a space ([ListMap] trims
    the spaces around the full path). *)
Definition key_storable (key : string) (v : Any) : bool :=
  bool_decide (key ≠ "") && negb (has_byte key "/") &&
  match v with Str _ => negb (HasSuffix key " ") | _ => true end.

(** Every key, at every depth, is storable. *)
Definition keys_storable : Any → bool := tree_forall key_storable.

(** The values [PutMap] neither stores nor can decompose into fields. *)
Definition non_decomposable (v : Any) : bool :=
  match v with
  | Int _ | Bool _ | Nil => true
  | Str _ | Map _ => false
  end.

(** ** The loops as functions

    The forms of the two loops that the proofs work with: the inner loop
    of [ListMap] as a function of the map it walks, and a run of [PutMap]
    as the list of its writes. *)

(** The inner loop as a function of the map [currentItem] refers to: what
    that map becomes, [None] on a panic.  [walk_nil] is the loop on the
    nil map, which goes well only when it is left at once. *)
Definition walk_nil (keys : list string) : option unit :=
  match keys with
  | [] => Some ()
  | key :: _ => if decide (key = "") then Some () else None
  end.

Fixpoint walk (keys : list string) (value : string)
    (currentItem : gmap string Any) : option (gmap string Any) :=
  match keys with
  | [] => Some currentItem
  | key :: rest =>
      if decide (key = "") then Some currentItem
      else match rest with
      | [] => Some (<[key := Str value]> currentItem)
      | _ :: _ =>
          let created :=
            match currentItem !! key with
            | Some _ => currentItem
            | None => <[key := Map ∅]> currentItem
            end in
          match created !! key with
          | Some (Map item) =>
              item' ← walk rest value item;
              Some (<[key := Map item']> created)
          | _ => _ ← walk_nil rest; Some created
          end
      end
  end.

(** The tree with the map at the end of a path replaced. *)
Fixpoint graft (path : list string) (m' : gmap string Any)
    (result : gmap string Any) : gmap string Any :=
  match path with
  | [] => m'
  | k :: path' =>
      match result !! k with
      | Some (Map item) => <[k := Map (graft path' m' item)]> result
      | _ => result
      end
  end.

(** The segments of an entry's path once the offset is stripped. *)
Definition segments (offset : string) (entry : KVPair) : list string :=
  Split (modEntry offset entry) "/".

(** [foldl] of the inner loop over (segments, value) pairs. *)
Fixpoint walk_all (pvs : list (list string * string))
    (result : gmap string Any) : option (gmap string Any) :=
  match pvs with
  | [] => Some result
  | (p, v) :: pvs' => result' ← walk p v result; walk_all pvs' result'
  end.

(** The value of the last pair with path [q]. *)
Fixpoint last_value (pvs : list (list string * string)) (q : list string)
    : option string :=
  match pvs with
  | [] => None
  | (p, v) :: pvs' =>
      match last_value pvs' q with
      | Some w => Some w
      | None => if decide (p = q) then Some v else None
      end
  end.

(** What one run of the inner loop on the path [p] leaves behind: a tree
    again, compact if it was, whose string leaves are the old ones and the
    new one at [p]. *)
Definition walk_post (p : list string) (value : string)
    (R R' : gmap string Any) : Prop :=
  is_tree (Map R') = true ∧
  (compact (Map R) = true → compact (Map R') = true) ∧
  ∀ q w, get_path q (Map R') = Some (Str w) ↔
         (q = p ∧ w = value) ∨ (q ≠ p ∧ get_path q (Map R) = Some (Str w)).

(** The writes of one field in a complete run of [PutMap]. *)
Definition flatten_field
    (flatten_rec : schedule → string → gmap string Any → list KVPair)
    (prefix : string) (data : gmap string Any) (ks : string * schedule)
    : list KVPair :=
  match data !! ks.1 with
  | None => []
  | Some (Str c) => [mkKVPair (Sprintf_s_slash_s prefix ks.1) c]
  | Some value =>
      flatten_rec ks.2 (Sprintf_s_slash_s prefix ks.1) (Decode value).1
  end.

(** The writes a complete run of [PutMap] under [s] makes, in order. *)
Fixpoint flatten (s : schedule) (prefix : string) (data : gmap string Any)
    {struct s} : list KVPair :=
  match s with
  | Range order => order ≫= flatten_field flatten prefix data
  end.

(** [PutStr] for each pair in turn, up to the first error. *)
Fixpoint PutStr_each {B} (k : kv B) (writes : list KVPair) (b : B)
    : B * option error :=
  match writes with
  | [] => (b, None)
  | w :: writes' =>
      let '(b1, err) := PutStr k (Key w) (Value w) b in
      match err with
      | Some e => (b1, Some e)
      | None => PutStr_each k writes' b1
      end
  end.

(** The key [PutMap] builds for the leaf at path [p] below [prefix]. *)
Definition path_key (prefix : string) (p : list string) : string :=
  foldl Sprintf_s_slash_s prefix p.

(** The pair [PutMap] writes for a leaf. *)
Definition leaf_entry (prefix : string) (pv : list string * string) : KVPair :=
  mkKVPair (path_key prefix pv.1) pv.2.

(** ** Examples *)

(** The cluster tree of the end-to-end example, and the schedule of one
    run over it. *)
Definition cluster_tree : gmap string Any :=
  {[ "cluster1" :=
       Map {[ "name" := Str "c1";
              "nodes" := Map {[ "h1" := Str "up"; "h2" := Str "down" ]} ]} ]}.

Definition cluster_schedule : schedule :=
  Range [("cluster1",
          Range [("nodes", Range [("h2", Range []); ("h1", Range [])]);
                 ("name", Range [])])].

(** A record with a number and a boolean among its fields. *)
Definition node_record : gmap string Any :=
  {[ "port" := Int 8500; "name" := Str "c1"; "up" := Bool true ]}.

Definition node_schedule : schedule :=
  Range [("port", Range []); ("name", Range []); ("up", Range [])].

(** A map with two string fields. *)
Definition two_fields : gmap string Any := {[ "a" := Str "1"; "b" := Str "2" ]}.

(** ** Further notions *)

(** No key holds the separator. *)
Definition keys_sep_free : Any → bool :=
  tree_forall (λ key _, negb (has_byte key "/")).

(** The keys the inner loop gets to: those before the first empty one. *)
Fixpoint before_empty (keys : list string) : list string :=
  match keys with
  | [] => []
  | key :: rest => if decide (key = "") then [] else key :: before_empty rest
  end.

(** A value that is not a map lies in the tree strictly above the end of
    the keys the loop gets to. *)
Definition blocked (keys : list string) (result : gmap string Any) : Prop :=
  ∃ q x, q ≠ [] ∧ q `prefix_of` before_empty keys ∧ q ≠ before_empty keys ∧
         get_path q (Map result) = Some x ∧ ∀ m, x ≠ Map m.

(** The entry with the spaces around its key removed. *)
Definition trim_key (entry : KVPair) : KVPair :=
  mkKVPair (Trim (Key entry) " ") (Value entry).

(** A backend that stores: [put] sets the key, replacing what it held,
    and [list] returns the pairs stored under the prefix. *)
Definition store : kv (gmap string string) :=
  {| list_ := λ prefix m,
       inr ((λ kv, mkKVPair kv.1 kv.2) <$>
              filter (λ kv, HasPrefix kv.1 prefix = true) (map_to_list m));
     put := λ p m, (<[Key p := Value p]> m, None) |}.

(** The inner loop on the keys [p] assigns a string at or above the path
    [q]: it gets to its last key, and that lies on the way to [q]. *)
Definition overwrites (p q : list string) : Prop :=
  p ≠ [] ∧ ("" ∉ p) ∧ (p `prefix_of` q).
(** ** Go strings: lemmas *)

Lemma string_app_cons (x : ascii) (a b : string) :
  String x a +:+ b = String x (a +:+ b).
Proof. reflexivity. Qed.

Lemma string_app_nil_l (b : string) : "" +:+ b = b.
Proof. reflexivity. Qed.

Lemma string_app_assoc (a b c : string) : (a +:+ b) +:+ c = a +:+ b +:+ c.
Proof.
  induction a as [|x a IH]; [done|].
  by rewrite !string_app_cons, IH.
Qed.

Lemma string_app_nil_r (a : string) : a +:+ "" = a.
Proof. induction a as [|x a IH]; [done|]. by rewrite string_app_cons, IH. Qed.

Lemma string_app_length (a b : string) :
  String.length (a +:+ b) = String.length a + String.length b.
Proof.
  induction a as [|x a IH]; [done|].
  rewrite string_app_cons. simpl. by rewrite IH.
Qed.

Lemma HasPrefix_app (a b : string) : HasPrefix (a +:+ b) a = true.
Proof.
  induction a as [|x a IH]; [done|].
  rewrite string_app_cons. simpl.
  rewrite bool_decide_eq_true_2 by done. exact IH.
Qed.

Lemma string_drop_app (a b : string) : string_drop (String.length a) (a +:+ b) = b.
Proof.
  induction a as [|x a IH]; [rewrite string_app_nil_l; by destruct b|].
  rewrite string_app_cons. simpl. exact IH.
Qed.

Lemma TrimPrefix_app (a b : string) : TrimPrefix (a +:+ b) a = b.
Proof. unfold TrimPrefix. by rewrite HasPrefix_app, string_drop_app. Qed.


Lemma HasSuffix_app_r (a b : string) : HasSuffix (a +:+ b) b = true.
Proof.
  induction a as [|x a IH].
  - rewrite string_app_nil_l. destruct b; simpl; [done|]. by rewrite bool_decide_eq_true_2.
  - rewrite string_app_cons. simpl. rewrite IH. apply orb_true_r.
Qed.

Lemma HasSuffix_app_ne (a b suffix : string) :
  b ≠ "" → String.length suffix ≤ String.length b →
  HasSuffix (a +:+ b) suffix = HasSuffix b suffix.
Proof.
  intros Hb Hlen. induction a as [|x a IH]; [done|].
  rewrite string_app_cons. simpl.
  rewrite IH. rewrite bool_decide_eq_false_2; [done|].
  intros Heq. apply (f_equal String.length) in Heq. simpl in Heq.
  rewrite string_app_length in Heq.
  destruct b; [done|]. simpl in *. lia.
Qed.

Lemma normalize_offset_slash (offset : string) :
  normalize_offset (offset +:+ "/") = offset +:+ "/".
Proof. unfold normalize_offset. by rewrite HasSuffix_app_r. Qed.

Lemma normalize_offset_no_slash (offset : string) :
  HasSuffix offset "/" = false → normalize_offset offset = offset +:+ "/".
Proof. unfold normalize_offset. by intros ->. Qed.

Lemma TrimLeft_id (s cutset : string) :
  (∀ c s', s = String c s' → has_byte cutset c = false) → TrimLeft s cutset = s.
Proof. destruct s as [|c s]; simpl; [done|]. intros H. by rewrite (H c s). Qed.

Lemma TrimRight_id (s : string) (c : ascii) :
  HasSuffix s (String c "") = false → TrimRight s (String c "") = s.
Proof.
  induction s as [|x s IH]; simpl; [done|].
  intros [Hx Hs]%orb_false_iff. rewrite IH by done.
  destruct s as [|y s]; [|done].
  simpl. apply bool_decide_eq_false in Hx.
  rewrite orb_false_r, bool_decide_eq_false_2; [done|]. congruence.
Qed.

Lemma Trim_space_id (s : string) :
  HasPrefix s " " = false → HasSuffix s " " = false → Trim s " " = s.
Proof.
  intros Hp Hs. unfold Trim. rewrite TrimLeft_id.
  - by apply TrimRight_id.
  - intros c s' ->. simpl in *. rewrite orb_false_r.
    destruct (bool_decide (c = " "%char)) eqn:E; [|done].
    done.
Qed.
Lemma Split_not_nil s sep : Split s sep ≠ [].
Proof.
  induction s as [|c s IH]; simpl; [done|].
  destruct (decide (c = sep)); [done|]. by destruct (Split s sep).
Qed.

Lemma Split_app_sep a b sep :
  Split (a +:+ String sep b) sep = Split a sep ++ Split b sep.
Proof.
  induction a as [|c a IH].
  - rewrite string_app_nil_l. simpl. by rewrite decide_True.
  - rewrite string_app_cons. simpl. rewrite IH.
    destruct (decide (c = sep)); [done|].
    pose proof (Split_not_nil a sep). by destruct (Split a sep).
Qed.

Lemma Split_no_sep s sep : has_byte s sep = false → Split s sep = [s].
Proof.
  induction s as [|c s IH]; simpl; [done|].
  intros [Hc Hs]%orb_false_iff. apply bool_decide_eq_false in Hc.
  rewrite decide_False by congruence. by rewrite IH.
Qed.

(** ** Trees: induction and the fold lemmas *)

Lemma Any_size_lookup (m : gmap string Any) key v :
  m !! key = Some v → Any_size v < Any_size (Map m).
Proof.
  intros H. simpl.
  rewrite (map_fold_delete_L _ _ key v m); [lia| |done].
  intros. lia.
Qed.

Lemma Any_map_ind (P : Any → Prop) :
  (∀ s, P (Str s)) →
  (∀ m, (∀ key v, m !! key = Some v → P v) → P (Map m)) →
  (∀ n, P (Int n)) → (∀ b, P (Bool b)) → P Nil →
  ∀ v, P v.
Proof.
  intros HStr HMap HInt HBool HNil v.
  remember (Any_size v) as n eqn:Hn. revert v Hn.
  induction n as [n IH] using lt_wf_ind. intros v ->.
  destruct v as [s|m|z|b|]; [done| |done..].
  apply HMap. intros key v Hv.
  eapply IH; [|done]. by eapply Any_size_lookup.
Qed.

Lemma map_fold_andb {A} (f : string → A → bool) (m : gmap string A) :
  map_fold (λ key x acc, f key x && acc) true m = true ↔
  ∀ key x, m !! key = Some x → f key x = true.
Proof.
  apply (map_fold_weak_ind (λ r m, r = true ↔ ∀ key x, m !! key = Some x → f key x = true)).
  - split; [|done]. intros _ key x. by rewrite lookup_empty.
  - intros i x m' r Hi IH. rewrite andb_true_iff, IH. split.
    + intros [Hx Hm] key y [[-> ->]|[? ?]]%lookup_insert_Some; eauto.
    + intros H. split.
      * apply H. by rewrite lookup_insert_eq.
      * intros key y Hy. apply H. rewrite lookup_insert_ne; [done|]. congruence.
Qed.

Lemma tree_forall_Map P (m : gmap string Any) :
  tree_forall P (Map m) = true ↔
  ∀ key v, m !! key = Some v → P key v = true ∧ tree_forall P v = true.
Proof.
  simpl. rewrite (map_fold_andb (λ key v, P key v && tree_forall P v)).
  by setoid_rewrite andb_true_iff.
Qed.

Lemma tree_forall_lookup P (m : gmap string Any) key v :
  tree_forall P (Map m) = true → m !! key = Some v →
  P key v = true ∧ tree_forall P v = true.
Proof. rewrite tree_forall_Map. eauto. Qed.

Lemma tree_forall_insert P (m : gmap string Any) key v :
  tree_forall P (Map m) = true → P key v = true → tree_forall P v = true →
  tree_forall P (Map (<[key := v]> m)) = true.
Proof.
  rewrite !tree_forall_Map. intros Hm HP Hv key' v'.
  intros [[-> ->]|[? ?]]%lookup_insert_Some; eauto.
Qed.

Lemma tree_forall_empty P : tree_forall P (Map ∅) = true.
Proof. apply tree_forall_Map. intros key v. by rewrite lookup_empty. Qed.

Lemma leaves_Map (m : gmap string Any) :
  leaves (Map m) = map_to_list m ≫= (λ kv, under kv.1 (leaves kv.2)).
Proof.
  simpl. rewrite map_fold_foldr.
  induction (map_to_list m) as [|[key v] l IH]; [done|].
  simpl. by rewrite IH.
Qed.

Lemma elem_of_under key pvs p w :
  (p, w) ∈ under key pvs ↔ ∃ p', p = key :: p' ∧ (p', w) ∈ pvs.
Proof.
  unfold under. rewrite list_elem_of_fmap. split.
  - intros [[p' w'] [Heq Hin]]. simpl in Heq. injection Heq as -> ->. eauto.
  - intros [p' [-> Hin]]. by exists (p', w).
Qed.

Lemma elem_of_leaves_Map (m : gmap string Any) p w :
  (p, w) ∈ leaves (Map m) ↔
  ∃ key v p', p = key :: p' ∧ m !! key = Some v ∧ (p', w) ∈ leaves v.
Proof.
  rewrite leaves_Map, list_elem_of_bind. split.
  - intros [[key v] [Hin Hkv%elem_of_map_to_list]]. simpl in Hin.
    apply elem_of_under in Hin as [p' [-> Hin]]. eauto 6.
  - intros (key & v & p' & -> & Hkv & Hin). exists (key, v). split.
    + apply elem_of_under. eauto.
    + by apply elem_of_map_to_list.
Qed.

(** A string leaf is listed exactly where [get_path] finds it. *)
Lemma elem_of_leaves v : ∀ p w,
  (p, w) ∈ leaves v ↔ get_path p v = Some (Str w).
Proof.
  induction v as [s|m IH|n|b|] using Any_map_ind; intros p w.
  - simpl. rewrite list_elem_of_singleton. destruct p; simpl; naive_solver.
  - rewrite elem_of_leaves_Map. split.
    + intros (key & v & p' & -> & Hkv & Hin). simpl. rewrite Hkv. simpl.
      by apply (IH key v Hkv).
    + destruct p as [|key p']; simpl; [done|].
      destruct (m !! key) as [v|] eqn:Hkv; simpl; [|done].
      intros Hget. exists key, v, p'. split_and!; [done..|].
      by apply (IH key v Hkv).
  - simpl. rewrite elem_of_nil. destruct p; simpl; naive_solver.
  - simpl. rewrite elem_of_nil. destruct p; simpl; naive_solver.
  - simpl. rewrite elem_of_nil. destruct p; simpl; naive_solver.
Qed.

Lemma NoDup_leaves v : NoDup (leaves v).
Proof.
  induction v as [s|m IH|n|b|] using Any_map_ind;
    [apply NoDup_singleton| |apply NoDup_nil_2..].
  rewrite leaves_Map. apply NoDup_bind.
  - intros [k1 v1] [k2 v2] [p w] Hk1%elem_of_map_to_list
      Hk2%elem_of_map_to_list H1 H2. simpl in *.
    apply elem_of_under in H1 as [p1 [-> H1]].
    apply elem_of_under in H2 as [p2 [Heq H2]].
    injection Heq as -> _. congruence.
  - intros [key v] Hkv%elem_of_map_to_list. simpl.
    unfold under. apply NoDup_fmap_2.
    + intros [p1 w1] [p2 w2] Heq. simpl in Heq. by injection Heq as -> ->.
    + by eapply IH.
  - apply NoDup_map_to_list.
Qed.

(** ** The inner loop of ListMap *)

Lemma walk_empty_key rest value cur : walk ("" :: rest) value cur = Some cur.
Proof. done. Qed.

Lemma walk_last key value cur :
  key ≠ "" → walk [key] value cur = Some (<[key := Str value]> cur).
Proof. intros Hkey. simpl. by rewrite decide_False. Qed.

Lemma walk_cons key rest value cur :
  walk (key :: rest) value cur =
    if decide (key = "") then Some cur
    else match rest with
    | [] => Some (<[key := Str value]> cur)
    | _ :: _ =>
        let created :=
          match cur !! key with
          | Some _ => cur
          | None => <[key := Map ∅]> cur
          end in
        match created !! key with
        | Some (Map item) =>
            item' ← walk rest value item; Some (<[key := Map item']> created)
        | _ => _ ← walk_nil rest; Some created
        end
    end.
Proof. done. Qed.

(** Below a fresh key the loop makes a map and fills it. *)
Lemma walk_fresh key k2 rest value cur :
  key ≠ "" → cur !! key = None →
  walk (key :: k2 :: rest) value cur =
    item' ← walk (k2 :: rest) value ∅; Some (<[key := Map item']> cur).
Proof.
  intros Hkey Hcur. rewrite walk_cons, decide_False by done.
  rewrite Hcur. cbv zeta. rewrite lookup_insert_eq.
  destruct (walk (k2 :: rest) value ∅) as [item'|]; [|done].
  cbn. by rewrite insert_insert_eq.
Qed.

(** Below a key that holds a map the loop goes on in that map. *)
Lemma walk_into key k2 rest value cur item :
  key ≠ "" → cur !! key = Some (Map item) →
  walk (key :: k2 :: rest) value cur =
    item' ← walk (k2 :: rest) value item; Some (<[key := Map item']> cur).
Proof.
  intros Hkey Hcur. rewrite walk_cons, decide_False by done.
  rewrite Hcur. cbv zeta. by rewrite Hcur.
Qed.

(** Below a key that holds anything else [currentItem] is nil. *)
Lemma walk_blocked key k2 rest value cur v :
  key ≠ "" → cur !! key = Some v → (∀ item, v ≠ Map item) →
  walk (key :: k2 :: rest) value cur = (_ ← walk_nil (k2 :: rest); Some cur).
Proof.
  intros Hkey Hcur Hv. rewrite walk_cons, decide_False by done.
  rewrite Hcur. cbv zeta. rewrite Hcur.
  destruct v; try done. by destruct (Hv m).
Qed.

Lemma get_path_nil_Str v w : get_path [] v = Some (Str w) ↔ v = Str w.
Proof. simpl. naive_solver. Qed.

Lemma get_path_cons key q (m : gmap string Any) :
  get_path (key :: q) (Map m) = m !! key ≫= get_path q.
Proof. done. Qed.

Lemma get_path_Str_inv q s w :
  get_path q (Str s) = Some (Str w) → q = [] ∧ s = w.
Proof. destruct q; simpl; naive_solver. Qed.

Lemma get_path_empty q w : get_path q (Map ∅) ≠ Some (Str w).
Proof. destruct q as [|key q]; simpl; [done|]. by rewrite lookup_empty. Qed.

Lemma get_path_size (m : gmap string Any) key q w :
  get_path (key :: q) (Map m) = Some (Str w) → size m ≠ 0.
Proof.
  rewrite get_path_cons. destruct (m !! key) as [v|] eqn:Hv; [|done].
  intros _ Hsize%map_size_empty_iff. subst m. by rewrite lookup_empty in Hv.
Qed.

Lemma walk_spec p : ∀ value R,
  p ≠ [] → "" ∉ p → is_tree (Map R) = true →
  (∀ q w, get_path q (Map R) = Some (Str w) →
          q `prefix_of` p ∨ p `prefix_of` q → q = p) →
  ∃ R', walk p value R = Some R' ∧ walk_post p value R R'.
Proof.
  induction p as [|key p IH]; intros value R Hnil Hne Htree Hcompat; [done|].
  apply not_elem_of_cons in Hne as [Hkey Hne].
  assert (Hkey' : key ≠ "") by done.
  destruct p as [|k2 rest].
  - (* the last key: the leaf is stored *)
    exists (<[key := Str value]> R). split; [by apply walk_last|].
    split_and!.
    + by apply tree_forall_insert.
    + intros Hc. by apply tree_forall_insert.
    + intros [|key' q] w.
      { simpl. naive_solver. }
      rewrite !get_path_cons.
      destruct (decide (key' = key)) as [->|Hk].
      * rewrite lookup_insert_eq. simpl. split.
        -- intros [-> ->]%get_path_Str_inv. by left.
        -- intros [[[= ->] ->]|[Hq Hget]]; [done|].
           exfalso. apply Hq. apply (Hcompat _ w); [done|].
           right. apply prefix_cons, prefix_nil.
      * rewrite lookup_insert_ne by done. split; [|naive_solver].
        intros Hget. right. split; [congruence|done].
  - (* an intermediate key *)
    assert (Hsub : ∀ item item',
      walk_post (k2 :: rest) value item item' →
      R !! key = None ∧ item = ∅ ∨ R !! key = Some (Map item) →
      walk_post (key :: k2 :: rest) value R (<[key := Map item']> R)).
    { intros item item' (Htree' & Hcompact' & Hmem) HR. split_and!.
      - by apply tree_forall_insert.
      - intros Hc. apply tree_forall_insert; [done| |].
        + simpl. apply bool_decide_eq_true.
          eapply (get_path_size _ k2 rest value). apply Hmem. by left.
        + apply Hcompact'. destruct HR as [[_ ->]|HR].
          * apply tree_forall_empty.
          * by apply (tree_forall_lookup _ _ _ _ Hc HR).
      - intros [|key' q] w.
        { simpl. naive_solver. }
        rewrite !get_path_cons.
        destruct (decide (key' = key)) as [->|Hk].
        + rewrite lookup_insert_eq. simpl. rewrite Hmem.
          destruct HR as [[-> ->] | ->]; simpl.
          * split; [|naive_solver].
            intros [[-> ->]|[_ Hget]]; [by left|]. by apply get_path_empty in Hget.
          * naive_solver.
        + rewrite lookup_insert_ne by done. split; [|naive_solver].
          intros Hget. right. split; [congruence|done]. }
    destruct (R !! key) as [v|] eqn:HR.
    + destruct v as [s|item|n|b|].
      * (* a string leaf above the path is excluded *)
        exfalso. assert (Heq : [key] = key :: k2 :: rest); [|done].
        apply (Hcompat _ s).
        -- rewrite get_path_cons, HR. done.
        -- left. apply prefix_cons, prefix_nil.
      * destruct (IH value item) as (item' & Hwalk & Hpost); [done|done| | |].
        -- by apply (tree_forall_lookup _ _ _ _ Htree HR).
        -- intros q w Hget Hpre.
           assert (Heq : key :: q = key :: k2 :: rest); [|congruence].
           apply (Hcompat _ w).
           ++ by rewrite get_path_cons, HR.
           ++ destruct Hpre; [left|right]; by apply prefix_cons.
        -- exists (<[key := Map item']> R). split.
           ++ rewrite (walk_into _ _ _ _ _ item) by done. by rewrite Hwalk.
           ++ apply (Hsub item); auto.
      * by apply (tree_forall_lookup _ _ _ _ Htree) in HR as [? _].
      * by apply (tree_forall_lookup _ _ _ _ Htree) in HR as [? _].
      * by apply (tree_forall_lookup _ _ _ _ Htree) in HR as [? _].
    + destruct (IH value ∅) as (item' & Hwalk & Hpost); [done|done| | |].
      * apply tree_forall_empty.
      * intros q w Hget. by apply get_path_empty in Hget.
      * exists (<[key := Map item']> R). split.
        -- rewrite walk_fresh by done. by rewrite Hwalk.
        -- apply (Hsub ∅); auto.
Qed.

(** ** The loop through the reference and the loop on the map *)

Lemma deref_snoc path : ∀ key result m,
  deref path result = Some m →
  deref (path ++ [key]) result =
    match m !! key with Some (Map item) => Some item | _ => None end.
Proof.
  induction path as [|k path IH]; intros key result m.
  - intros [= ->]. simpl. by destruct (m !! key) as [[]|].
  - simpl. destruct (result !! k) as [[]|]; try done. apply IH.
Qed.

Lemma assign_at_graft path : ∀ key v result m,
  deref path result = Some m →
  assign_at path key v result = graft path (<[key := v]> m) result.
Proof.
  induction path as [|k path IH]; intros key v result m.
  - by intros [= ->].
  - simpl. destruct (result !! k) as [[]|]; try done.
    intros Hm. by rewrite (IH key v _ m).
Qed.

Lemma deref_graft path : ∀ m' result m,
  deref path result = Some m → deref path (graft path m' result) = Some m'.
Proof.
  induction path as [|k path IH]; intros m' result m; [done|].
  simpl. destruct (result !! k) as [[]|] eqn:Hk; try done.
  intros Hm. rewrite lookup_insert_eq. by apply (IH m' _ m).
Qed.

Lemma graft_graft path : ∀ m' m'' result,
  graft path m'' (graft path m' result) = graft path m'' result.
Proof.
  induction path as [|k path IH]; intros m' m'' result; [done|].
  simpl. destruct (result !! k) as [[]|] eqn:Hk; rewrite ?Hk; try done.
  by rewrite lookup_insert_eq, insert_insert_eq, IH.
Qed.

Lemma graft_id path : ∀ result m,
  deref path result = Some m → graft path m result = result.
Proof.
  induction path as [|k path IH]; intros result m.
  - by intros [= ->].
  - simpl. destruct (result !! k) as [[]|] eqn:Hk; try done.
    intros Hm. rewrite (IH _ m Hm). by apply insert_id.
Qed.

Lemma graft_snoc path : ∀ key item' result m,
  deref path result = Some m → is_Some (deref (path ++ [key]) result) →
  graft (path ++ [key]) item' result = graft path (<[key := Map item']> m) result.
Proof.
  induction path as [|k path IH]; intros key item' result m.
  - intros [= ->]. simpl. by destruct (m !! key) as [[]|]; intros [? ?].
  - simpl. destruct (result !! k) as [[]|] eqn:Hk; try done.
    intros Hm Hsome. by rewrite (IH key item' _ m).
Qed.

Lemma ListMap_keys_cons key rest value result currentItem :
  ListMap_keys (key :: rest) value result currentItem =
    if decide (String.length key = 0) then Some result
    else match rest with
    | [] => assign currentItem key (Str value) result
    | _ :: _ =>
        result1 ←
          match index currentItem key result with
          | Some _ => Some result
          | None => assign currentItem key (Map ∅) result
          end;
        ListMap_keys rest value result1 (item_of currentItem key result1)
    end.
Proof. done. Qed.

Lemma bind_Some {A C} (x : A) (f : A → option C) : Some x ≫= f = f x.
Proof. done. Qed.

Lemma ListMap_keys_nil keys value result :
  ListMap_keys keys value result NilMap = (_ ← walk_nil keys; Some result).
Proof.
  destruct keys as [|key rest]; [done|]. simpl.
  destruct key as [|c key]; [done|]. simpl. by destruct rest.
Qed.

(** The loop through a reference does to the map referred to what [walk]
    says, and leaves the rest of the tree alone. *)
Lemma ListMap_keys_at keys : ∀ value result path m,
  deref path result = Some m →
  ListMap_keys keys value result (MapAt path) =
    (m' ← walk keys value m; Some (graft path m' result)).
Proof.
  induction keys as [|key rest IH]; intros value result path m Hm.
  { simpl. by rewrite (graft_id path result m). }
  rewrite walk_cons, ListMap_keys_cons.
  destruct key as [|c key].
  { simpl. by rewrite (graft_id path result m). }
  set (k := String c key).
  rewrite (decide_False (P := String.length k = 0)) by done.
  rewrite (decide_False (P := k = "")) by done.
  destruct rest as [|k2 rest].
  { simpl. by rewrite (assign_at_graft path k _ result m). }
  cbv zeta. unfold index at 1. rewrite Hm, bind_Some.
  destruct (m !! k) as [v|] eqn:Hk.
  - rewrite bind_Some. unfold item_of, index. rewrite Hm, bind_Some, Hk.
    destruct v as [s|item|n|b|];
      try (rewrite ListMap_keys_nil; destruct (walk_nil _); simpl;
           by rewrite ?(graft_id path result m)).
    rewrite (IH value result (path ++ [k]) item).
    + destruct (walk (k2 :: rest) value item) as [item'|]; [|done]. simpl.
      rewrite (graft_snoc path k item' result m); [done..|].
      rewrite (deref_snoc path k result m Hm), Hk. by eexists.
    + by rewrite (deref_snoc path k result m Hm), Hk.
  - unfold assign. rewrite bind_Some.
    rewrite (assign_at_graft path k _ result m Hm).
    set (result1 := graft path (<[k := Map ∅]> m) result).
    assert (Hm1 : deref path result1 = Some (<[k := Map ∅]> m))
      by by apply (deref_graft path _ result m).
    unfold item_of, index. rewrite Hm1, bind_Some.
    rewrite !lookup_insert_eq.
    rewrite (IH value result1 (path ++ [k]) ∅).
    + destruct (walk (k2 :: rest) value ∅) as [item'|]; [|done]. simpl.
      rewrite (graft_snoc path k item' result1 _ Hm1).
      * unfold result1. by rewrite graft_graft, !insert_insert_eq.
      * rewrite (deref_snoc path k result1 _ Hm1), lookup_insert_eq. by eexists.
    + by rewrite (deref_snoc path k result1 _ Hm1), lookup_insert_eq.
Qed.

Lemma ListMap_keys_walk keys value result :
  ListMap_keys keys value result (MapAt []) = walk keys value result.
Proof.
  rewrite (ListMap_keys_at keys value result [] result) by done.
  by destruct (walk keys value result).
Qed.

(** ** The outer loop of ListMap *)

(** An iteration of the outer loop is a [walk] from [result].  The test
    for an empty remainder is subsumed by the inner loop: the split of the
    empty string is one empty key, at which the loop breaks. *)
Lemma ListMap_entry_walk offset result entry :
  ListMap_entry offset result entry =
    walk (segments offset entry) (Value entry) result.
Proof.
  unfold ListMap_entry, segments.
  destruct (decide _) as [Hlen|]; [|apply ListMap_keys_walk].
  destruct (modEntry offset entry); [done|discriminate].
Qed.

Lemma ListMap_loop_walk_all offset entries : ∀ result,
  ListMap_loop offset entries result =
    walk_all ((λ e, (segments offset e, Value e)) <$> entries) result.
Proof.
  induction entries as [|e entries IH]; intros result; [done|].
  simpl. rewrite ListMap_entry_walk.
  destruct (walk _ _ _); simpl; [apply IH|done].
Qed.

Lemma ListMap_returns {B} (k : kv B) prefix offset b entries result :
  list_ k prefix b = inr entries →
  walk_all ((λ e, (segments (normalize_offset offset) e, Value e)) <$> entries) ∅
    = Some result →
  ListMap k prefix offset b = Returns (Some result) None.
Proof.
  intros Hlist Hwalk. unfold ListMap.
  by rewrite Hlist, ListMap_loop_walk_all, Hwalk.
Qed.

Lemma last_value_cons p v pvs q :
  last_value ((p, v) :: pvs) q =
    match last_value pvs q with
    | Some w => Some w
    | None => if decide (p = q) then Some v else None
    end.
Proof. done. Qed.

Lemma last_value_elem_of pvs q w : last_value pvs q = Some w → (q, w) ∈ pvs.
Proof.
  induction pvs as [|[p v] pvs IH]; [done|].
  rewrite last_value_cons. destruct (last_value pvs q) as [w'|].
  - intros [= ->]. right. by apply IH.
  - case_decide; [|done]. intros [= ->]. subst. left.
Qed.

Lemma last_value_None pvs q : last_value pvs q = None ↔ q ∉ pvs.*1.
Proof.
  induction pvs as [|[p v] pvs IH].
  { simpl. split; [intros _; apply not_elem_of_nil|done]. }
  rewrite last_value_cons, fmap_cons, not_elem_of_cons. simpl.
  destruct (last_value pvs q) as [w'|].
  - split; [done|]. intros [_ Hq]. by apply IH in Hq.
  - case_decide; naive_solver.
Qed.

Lemma last_value_app pvs1 p v pvs2 :
  p ∉ pvs2.*1 → last_value (pvs1 ++ (p, v) :: pvs2) p = Some v.
Proof.
  intros Hp%last_value_None. induction pvs1 as [|[p1 v1] pvs1 IH].
  - simpl. rewrite Hp. by rewrite decide_True.
  - rewrite <-app_comm_cons, last_value_cons. by rewrite IH.
Qed.

Lemma last_value_NoDup pvs q w :
  NoDup pvs.*1 → last_value pvs q = Some w ↔ (q, w) ∈ pvs.
Proof.
  intros Hnd. split; [apply last_value_elem_of|].
  induction pvs as [|[p v] pvs IH]; [by intros ?%elem_of_nil|].
  rewrite fmap_cons in Hnd. apply NoDup_cons in Hnd as [Hp Hnd].
  rewrite last_value_cons. intros [[= -> ->]|Hin]%elem_of_cons.
  - simpl in Hp. apply last_value_None in Hp. rewrite Hp. by rewrite decide_True.
  - by rewrite IH.
Qed.

(** The entries in list order, none with a path through another's leaf:
    every one is stored, and for each path the last value is what the tree
    holds. *)
Lemma walk_all_spec pvs : ∀ R,
  (∀ p, p ∈ pvs.*1 → p ≠ [] ∧ "" ∉ p) →
  (∀ p q, p ∈ pvs.*1 → q ∈ pvs.*1 → p `prefix_of` q → p = q) →
  is_tree (Map R) = true →
  (∀ q w p, get_path q (Map R) = Some (Str w) → p ∈ pvs.*1 →
            q `prefix_of` p ∨ p `prefix_of` q → q = p) →
  ∃ R', walk_all pvs R = Some R' ∧
        is_tree (Map R') = true ∧
        (compact (Map R) = true → compact (Map R') = true) ∧
        ∀ q w, get_path q (Map R') = Some (Str w) ↔
               last_value pvs q = Some w ∨
               (last_value pvs q = None ∧ get_path q (Map R) = Some (Str w)).
Proof.
  induction pvs as [|[p v] pvs IH]; intros R Hsegs Hpair Htree Hcompat.
  { exists R. split_and!; [done..|]. intros q w. simpl. naive_solver. }
  rewrite fmap_cons in Hsegs, Hpair, Hcompat. simpl in Hsegs, Hpair, Hcompat.
  destruct (Hsegs p) as [Hnil Hne]; [left|].
  destruct (walk_spec p v R) as (R1 & Hwalk & Htree1 & Hcompact1 & Hmem1);
    [done..| |].
  { intros q w Hget Hpre. apply (Hcompat q w p Hget); [left|done]. }
  destruct (IH R1) as (R' & Hall & Htree' & Hcompact' & Hmem'); [| |done| |].
  - intros p' Hp'. apply Hsegs. by right.
  - intros p' q' Hp' Hq'. apply Hpair; by right.
  - intros q w p' [[-> ->]|[Hq Hget]]%Hmem1 Hp' Hpre.
    + destruct Hpre as [Hpre|Hpre].
      * apply Hpair; [left|by right|done].
      * symmetry. apply Hpair; [by right|left|done].
    + apply (Hcompat q w p' Hget); [by right|done].
  - exists R'. split_and!.
    + simpl. by rewrite Hwalk.
    + done.
    + auto.
    + intros q w. rewrite Hmem', last_value_cons, Hmem1.
      destruct (last_value pvs q) as [w'|]; [naive_solver|].
      case_decide; naive_solver.
Qed.

(** ** Properties of ListMap *)

Lemma Forall_pairs {A} (R : A → A → Prop) (l : list A) :
  Forall (λ x, Forall (R x) l) l → ∀ x y, x ∈ l → y ∈ l → R x y.
Proof.
  intros H x y Hx Hy.
  eapply Forall_forall in H; [|exact Hx].
  eapply Forall_forall in H; [|exact Hy]. exact H.
Qed.

(** The common ground of the leaf-count and last-write-wins properties. *)
Lemma ListMap_prefix_free_spec {B} (k : kv B) (prefix offset : string) (b : B)
    (entries : list KVPair) :
  list_ k prefix b = inr entries →
  (∀ e, e ∈ entries → "" ∉ segments (normalize_offset offset) e) →
  (∀ e e', e ∈ entries → e' ∈ entries →
     segments (normalize_offset offset) e
       `prefix_of` segments (normalize_offset offset) e' →
     segments (normalize_offset offset) e = segments (normalize_offset offset) e') →
  ∃ result, ListMap k prefix offset b = Returns (Some result) None ∧
    is_tree (Map result) = true ∧ compact (Map result) = true ∧
    ∀ q w, get_path q (Map result) = Some (Str w) ↔
           last_value ((λ e, (segments (normalize_offset offset) e, Value e))
                         <$> entries) q = Some w.
Proof.
  intros Hlist Hne Hpair.
  set (segs := segments (normalize_offset offset)) in *.
  set (pvs := (λ e, (segs e, Value e)) <$> entries).
  assert (Hpaths : pvs.*1 = segs <$> entries).
  { unfold pvs. by rewrite <-list_fmap_compose. }
  destruct (walk_all_spec pvs ∅) as (R' & Hall & Htree & Hcompact & Hmem).
  - rewrite Hpaths. intros p (e & -> & He)%list_elem_of_fmap. split.
    + apply Split_not_nil.
    + by apply Hne.
  - rewrite Hpaths.
    intros p q (e & -> & He)%list_elem_of_fmap (e' & -> & He')%list_elem_of_fmap.
    by apply Hpair.
  - apply tree_forall_empty.
  - intros q w p Hget. by apply get_path_empty in Hget.
  - exists R'. split_and!.
    + by apply (ListMap_returns k prefix offset b entries).
    + done.
    + apply Hcompact, tree_forall_empty.
    + intros q w. rewrite Hmem. split; [|by left].
      intros [?|[_ Hget]]; [done|]. by apply get_path_empty in Hget.
Qed.

(** C2, the failing input.  The entry at a stores a string; the walk of
    a/b then finds a non-map value at a, goes on with the nil map and
    assigns to it. *)
Example ListMap_nil_map_panic :
  ListMap recorder "" "" [mkKVPair "a" "x"; mkKVPair "a/b" "y"] = Panics.
Proof. reflexivity. Qed.

(** C3, as amended.  When the offset-stripped paths of the N entries have
    no empty segment and none is a prefix of (or equal to) another,
    [ListMap] returns a tree whose string leaves are exactly the entries:
    N leaves, no two of them at the same path. *)
Theorem ListMap_leaf_count {B} (k : kv B) (prefix offset : string) (b : B)
    (entries : list KVPair) :
  list_ k prefix b = inr entries →
  (∀ e, e ∈ entries → "" ∉ segments (normalize_offset offset) e) →
  (∀ i j e e', entries !! i = Some e → entries !! j = Some e' →
     segments (normalize_offset offset) e
       `prefix_of` segments (normalize_offset offset) e' → i = j) →
  ∃ result,
    ListMap k prefix offset b = Returns (Some result) None ∧
    leaves (Map result)
      ≡ₚ (λ e, (segments (normalize_offset offset) e, Value e)) <$> entries ∧
    length (leaves (Map result)) = length entries ∧
    NoDup (leaves (Map result)).*1.
Proof.
  intros Hlist Hne Hfree.
  set (segs := segments (normalize_offset offset)) in *.
  set (pvs := (λ e, (segs e, Value e)) <$> entries).
  assert (Hpaths : pvs.*1 = segs <$> entries).
  { unfold pvs. by rewrite <-list_fmap_compose. }
  assert (Hnd : NoDup pvs.*1).
  { rewrite Hpaths. apply NoDup_alt. intros i j p Hi Hj.
    apply list_lookup_fmap_Some in Hi as (e & -> & He).
    apply list_lookup_fmap_Some in Hj as (e' & Heq & He').
    apply (Hfree i j e e' He He'). by rewrite Heq. }
  destruct (ListMap_prefix_free_spec k prefix offset b entries Hlist)
    as (result & Hret & Htree & Hcompact & Hmem); [done| |].
  { intros e e' [i Hi]%list_elem_of_lookup [j Hj]%list_elem_of_lookup Hpre.
    assert (i = j) as Hij by (by apply (Hfree i j e e')).
    subst j. congruence. }
  assert (Hperm : leaves (Map result) ≡ₚ pvs).
  { apply NoDup_Permutation.
    - apply NoDup_leaves.
    - by eapply NoDup_fmap_1.
    - intros [q w]. rewrite elem_of_leaves, Hmem. by apply last_value_NoDup. }
  exists result. split_and!; [done|done| |].
  - rewrite Hperm. unfold pvs. by rewrite length_fmap.
  - by rewrite Hperm.
Qed.

(** C3, counterexamples.  Two entries with distinct full paths, no empty
    segment and a non-empty remainder, yet the tree has one leaf: the
    second path is a prefix of the first and replaces its subtree.  And
    two full paths that differ by a space at the start only: trimmed, they
    are one path. *)
Lemma ListMap_leaf_count_counterexample :
  NoDup (Key <$> [mkKVPair "a/b" "y"; mkKVPair "a" "x"]) ∧
  Forall (λ e, ("" ∉ segments (normalize_offset "") e) ∧
               (modEntry (normalize_offset "") e ≠ ""))
    [mkKVPair "a/b" "y"; mkKVPair "a" "x"] ∧
  ListMap recorder "" "" [mkKVPair "a/b" "y"; mkKVPair "a" "x"]
    = Returns (Some {[ "a" := Str "x" ]}) None ∧
  length (leaves (Map {[ "a" := Str "x" ]})) = 1 ∧
  length [mkKVPair "a/b" "y"; mkKVPair "a" "x"] = 2 ∧
  NoDup (Key <$> [mkKVPair "a" "1"; mkKVPair " a" "2"]) ∧
  Forall (λ e, ("" ∉ segments (normalize_offset "") e) ∧
               (modEntry (normalize_offset "") e ≠ ""))
    [mkKVPair "a" "1"; mkKVPair " a" "2"] ∧
  ListMap recorder "" "" [mkKVPair "a" "1"; mkKVPair " a" "2"]
    = Returns (Some {[ "a" := Str "2" ]}) None ∧
  length (leaves (Map {[ "a" := Str "2" ]})) = 1.
Proof. split_and!; compute_done. Qed.

(** C3, witness: the three entries of the end-to-end example. *)
Lemma ListMap_leaf_count_witness :
  ∃ result,
    ListMap recorder "trento/v0/clusters" "trento/v0/clusters"
      [mkKVPair "trento/v0/clusters/cluster1/name" "c1";
       mkKVPair "trento/v0/clusters/cluster1/nodes/h1" "up";
       mkKVPair "trento/v0/clusters/cluster1/nodes/h2" "down"]
      = Returns (Some result) None ∧
    leaves (Map result)
      ≡ₚ [(["cluster1"; "name"], "c1"); (["cluster1"; "nodes"; "h1"], "up");
          (["cluster1"; "nodes"; "h2"], "down")] ∧
    length (leaves (Map result)) = 3 ∧
    NoDup (leaves (Map result)).*1.
Proof.
  refine (ListMap_leaf_count recorder "trento/v0/clusters" "trento/v0/clusters"
    [mkKVPair "trento/v0/clusters/cluster1/name" "c1";
     mkKVPair "trento/v0/clusters/cluster1/nodes/h1" "up";
     mkKVPair "trento/v0/clusters/cluster1/nodes/h2" "down"]
    [mkKVPair "trento/v0/clusters/cluster1/name" "c1";
     mkKVPair "trento/v0/clusters/cluster1/nodes/h1" "up";
     mkKVPair "trento/v0/clusters/cluster1/nodes/h2" "down"] eq_refl _ _).
  - apply Forall_forall. compute_done.
  - intros i j e e' Hi Hj.
    destruct i as [|[|[|i]]]; [| | |done]; injection Hi as <-;
    (destruct j as [|[|[|j]]]; [| | |done]); injection Hj as <-;
    first [done | intros Hpre; exfalso; revert Hpre; compute_done].
Defined.

(** C5, as amended.  When the offset-stripped paths have no empty segment
    and two of them are equal whenever one is a prefix of the other,
    [ListMap] returns a tree and no error, and the tree holds at each path
    the value of the last entry with that path. *)
Theorem ListMap_last_write_wins {B} (k : kv B) (prefix offset : string) (b : B)
    (entries : list KVPair) :
  list_ k prefix b = inr entries →
  (∀ e, e ∈ entries → "" ∉ segments (normalize_offset offset) e) →
  (∀ e e', e ∈ entries → e' ∈ entries →
     segments (normalize_offset offset) e
       `prefix_of` segments (normalize_offset offset) e' →
     segments (normalize_offset offset) e = segments (normalize_offset offset) e') →
  ∃ result,
    ListMap k prefix offset b = Returns (Some result) None ∧
    ∀ before e after,
      entries = before ++ e :: after →
      (∀ e', e' ∈ after →
         segments (normalize_offset offset) e' ≠ segments (normalize_offset offset) e) →
      get_path (segments (normalize_offset offset) e) (Map result)
        = Some (Str (Value e)).
Proof.
  intros Hlist Hne Hpair.
  destruct (ListMap_prefix_free_spec k prefix offset b entries Hlist Hne Hpair)
    as (result & Hret & _ & _ & Hmem).
  exists result. split; [done|].
  intros before e after -> Hlast. apply Hmem.
  rewrite fmap_app, fmap_cons. apply last_value_app.
  rewrite <-list_fmap_compose. intros (e' & Heq & He')%list_elem_of_fmap.
  simpl in Heq. by apply (Hlast e').
Qed.

(** C5, counterexample.  The path a/b occurs twice, the last time with
    the value 2; the later entry at a replaces the subtree, and the tree
    holds nothing at a/b. *)
Lemma ListMap_last_write_wins_counterexample :
  ListMap recorder "" ""
    [mkKVPair "a/b" "1"; mkKVPair "a/b" "2"; mkKVPair "a" "3"]
    = Returns (Some {[ "a" := Str "3" ]}) None ∧
  get_path ["a"; "b"] (Map {[ "a" := Str "3" ]}) = None.
Proof. split; compute_done. Qed.

(** C5, witness: a path written twice, with another entry in between. *)
Lemma ListMap_last_write_wins_witness :
  ∃ result,
    ListMap recorder "kv" "kv"
      [mkKVPair "kv/a/b" "1"; mkKVPair "kv/c" "3"; mkKVPair "kv/a/b" "2"]
      = Returns (Some result) None ∧
    ∀ before e after,
      [mkKVPair "kv/a/b" "1"; mkKVPair "kv/c" "3"; mkKVPair "kv/a/b" "2"]
        = before ++ e :: after →
      (∀ e', e' ∈ after →
         segments (normalize_offset "kv") e' ≠ segments (normalize_offset "kv") e) →
      get_path (segments (normalize_offset "kv") e) (Map result)
        = Some (Str (Value e)).
Proof.
  refine (ListMap_last_write_wins recorder "kv" "kv"
    [mkKVPair "kv/a/b" "1"; mkKVPair "kv/c" "3"; mkKVPair "kv/a/b" "2"]
    [mkKVPair "kv/a/b" "1"; mkKVPair "kv/c" "3"; mkKVPair "kv/a/b" "2"]
    eq_refl _ _).
  - apply Forall_forall. compute_done.
  - apply (Forall_pairs (λ e e',
      segments (normalize_offset "kv") e `prefix_of` segments (normalize_offset "kv") e' →
      segments (normalize_offset "kv") e = segments (normalize_offset "kv") e')).
    compute_done.
Defined.

(** ** Offset normalization and the skipped entries *)

(** C7.  An offset that does not end with the separator and the same
    offset with the separator appended give the same result. *)
Theorem ListMap_offset_normalization {B} (k : kv B) (prefix offset : string)
    (b : B) :
  HasSuffix offset "/" = false →
  ListMap k prefix offset b = ListMap k prefix (offset +:+ "/") b.
Proof.
  intros Hoff. unfold ListMap.
  by rewrite normalize_offset_slash, normalize_offset_no_slash.
Qed.

(** C7, witness: the offsets a/b and a/b/. *)
Lemma ListMap_offset_normalization_witness :
  HasSuffix "a/b" "/" = false ∧
  ListMap recorder "a/b" "a/b" [mkKVPair "a/b/c" "1"; mkKVPair "a/b/d/e" "2"]
  = ListMap recorder "a/b" "a/b/" [mkKVPair "a/b/c" "1"; mkKVPair "a/b/d/e" "2"].
Proof.
  split; [reflexivity|].
  exact (ListMap_offset_normalization recorder "a/b" "a/b"
           [mkKVPair "a/b/c" "1"; mkKVPair "a/b/d/e" "2"] eq_refl).
Defined.

Lemma ListMap_loop_app offset entries1 entries2 : ∀ result,
  ListMap_loop offset (entries1 ++ entries2) result =
    ListMap_loop offset entries1 result ≫= ListMap_loop offset entries2.
Proof.
  induction entries1 as [|e entries1 IH]; intros result; [done|].
  simpl. destruct (ListMap_entry offset result e); simpl; [apply IH|done].
Qed.

(** An entry whose trimmed path is the normalized offset has an empty
    remainder, and so has one whose trimmed path is empty. *)
Lemma modEntry_offset offset entry :
  Trim (Key entry) " " = offset → modEntry offset entry = "".
Proof.
  intros Heq. unfold modEntry. rewrite Heq.
  rewrite <-(string_app_nil_r offset) at 1. apply TrimPrefix_app.
Qed.

Lemma HasSuffix_inv s suffix :
  HasSuffix s suffix = true → ∃ a, s = a +:+ suffix.
Proof.
  induction s as [|c s IH]; simpl.
  - rewrite orb_false_r. intros <-%bool_decide_eq_true. by exists "".
  - intros [<-%bool_decide_eq_true|Hs]%orb_true_iff; [by exists ""|].
    destruct (IH Hs) as [a ->]. by exists (String c a).
Qed.

Lemma normalize_offset_ends offset : ∃ a, normalize_offset offset = a +:+ "/".
Proof.
  unfold normalize_offset. destruct (HasSuffix offset "/") eqn:Hs; simpl.
  - by apply HasSuffix_inv.
  - by exists offset.
Qed.

Lemma normalize_offset_HasPrefix offset c :
  HasPrefix (normalize_offset offset) (String c "")
  = HasPrefix (offset +:+ "/") (String c "").
Proof.
  unfold normalize_offset. destruct (HasSuffix offset "/") eqn:Hs; [|done].
  simpl. destruct offset as [|x offset]; [done|].
  by rewrite string_app_cons.
Qed.

(** An entry whose path is the normalized offset has an empty remainder,
    unless the offset starts with a space, which the trimming takes away
    from the path and not from the offset. *)
Lemma modEntry_offset_exact offset entry :
  Key entry = normalize_offset offset → HasPrefix offset " " = false →
  modEntry (normalize_offset offset) entry = "".
Proof.
  intros Hkey Hspace. apply modEntry_offset. rewrite Hkey.
  apply Trim_space_id.
  - rewrite normalize_offset_HasPrefix.
    destruct offset as [|x offset]; [done|]. by rewrite string_app_cons.
  - destruct (normalize_offset_ends offset) as [a ->].
    by rewrite HasSuffix_app_ne.
Qed.

(** An entry whose remainder after the stripping of the offset is empty
    adds nothing: the guard of the loop skips it. *)
Lemma ListMap_skips_empty_modEntry {B} (k : kv B) (prefix offset : string)
    (b b' : B) (before after : list KVPair) (entry : KVPair) :
  list_ k prefix b = inr (before ++ entry :: after) →
  list_ k prefix b' = inr (before ++ after) →
  modEntry (normalize_offset offset) entry = "" →
  ListMap k prefix offset b = ListMap k prefix offset b'.
Proof.
  intros Hb Hb' Hmod. unfold ListMap. rewrite Hb, Hb'.
  rewrite !ListMap_loop_app. simpl.
  destruct (ListMap_loop _ before ∅) as [result|]; simpl; [|done].
  unfold ListMap_entry. by rewrite Hmod.
Qed.

(** C8, as amended.  For an entry whose path is the normalized offset,
    when the offset does not start with a space, the remainder after the
    stripping of the offset is empty and the entry adds nothing: what
    [ListMap] gives is what it gives for the list without the entry. *)
Theorem ListMap_empty_remainder_skip {B} (k : kv B) (prefix offset : string)
    (b b' : B) (before after : list KVPair) (entry : KVPair) :
  list_ k prefix b = inr (before ++ entry :: after) →
  list_ k prefix b' = inr (before ++ after) →
  Key entry = normalize_offset offset →
  HasPrefix offset " " = false →
  modEntry (normalize_offset offset) entry = "" ∧
  ListMap k prefix offset b = ListMap k prefix offset b'.
Proof.
  intros Hb Hb' Hkey Hspace.
  pose proof (modEntry_offset_exact offset entry Hkey Hspace) as Hmod.
  split; [done|]. by eapply ListMap_skips_empty_modEntry.
Qed.

(** C8, counterexample.  The offset starts with a space and the path of
    the entry is the normalized offset.  The trimming takes the space from
    the path and not from the offset, the stripping finds no offset to
    strip, and the entry adds a map at a. *)
Lemma ListMap_empty_remainder_skip_counterexample :
  Key (mkKVPair " a/" "v") = normalize_offset " a" ∧
  modEntry (normalize_offset " a") (mkKVPair " a/" "v") = "a/" ∧
  ListMap recorder " a" " a" [mkKVPair " a/" "v"]
    = Returns (Some {[ "a" := Map ∅ ]}) None ∧
  ListMap recorder " a" " a" [] = Returns (Some ∅) None ∧
  ListMap recorder " a" " a" [mkKVPair " a/" "v"] ≠ ListMap recorder " a" " a" [].
Proof.
  assert (Hwith : ListMap recorder " a" " a" [mkKVPair " a/" "v"]
                  = Returns (Some {[ "a" := Map ∅ ]}) None) by compute_done.
  assert (Hwithout : ListMap recorder " a" " a" [] = Returns (Some ∅) None)
    by compute_done.
  split_and!; [compute_done|compute_done|done|done|].
  rewrite Hwith, Hwithout. discriminate.
Qed.

(** C8, witness: an entry whose path is the normalized offset a/b/. *)
Lemma ListMap_empty_remainder_skip_witness :
  modEntry (normalize_offset "a/b") (mkKVPair "a/b/" "dir") = "" ∧
  ListMap recorder "a/b" "a/b"
    [mkKVPair "a/b/c" "1"; mkKVPair "a/b/" "dir"; mkKVPair "a/b/d" "2"]
  = ListMap recorder "a/b" "a/b" [mkKVPair "a/b/c" "1"; mkKVPair "a/b/d" "2"].
Proof.
  exact (ListMap_empty_remainder_skip recorder "a/b" "a/b"
           [mkKVPair "a/b/c" "1"; mkKVPair "a/b/" "dir"; mkKVPair "a/b/d" "2"]
           [mkKVPair "a/b/c" "1"; mkKVPair "a/b/d" "2"]
           [mkKVPair "a/b/c" "1"] [mkKVPair "a/b/d" "2"] (mkKVPair "a/b/" "dir")
           eq_refl eq_refl eq_refl eq_refl).
Defined.
(** ** Empty segments *)

Lemma walk_truncate before : ∀ after value value' cur,
  walk (before ++ "" :: after) value cur = walk (before ++ [""]) value' cur.
Proof.
  induction before as [|key rest IH]; intros after value value' cur; [done|].
  rewrite <-!app_comm_cons, !walk_cons.
  destruct (decide (key = "")); [done|].
  destruct rest as [|k2 rest].
  - simpl. by destruct (_ !! key) as [[]|].
  - rewrite <-!app_comm_cons. cbv zeta.
    destruct (_ !! key) as [[]|]; try done.
    by rewrite !app_comm_cons, (IH after value value').
Qed.

Lemma walk_truncated_is_Some before : ∀ after key value value' cur,
  key ≠ "" →
  is_Some (walk (before ++ [key]) value cur) →
  is_Some (walk (before ++ "" :: after) value' cur).
Proof.
  induction before as [|k rest IH]; intros after key value value' cur Hkey; [by eexists|].
  rewrite <-!app_comm_cons, !walk_cons.
  destruct (decide (k = "")); [done|].
  destruct rest as [|k2 rest].
  - simpl. destruct (_ !! k) as [[]|]; try done; rewrite decide_False by done;
      by intros [? ?].
  - rewrite <-!app_comm_cons. cbv zeta.
    destruct (_ !! k) as [[s|item| | |]|]; try done.
    rewrite !app_comm_cons. intros [R' HR'].
    destruct (walk ((k2 :: rest) ++ [key]) value item) as [item'|] eqn:Hw; [|done].
    destruct (IH after key value value' item Hkey) as [item'' ->]; [by rewrite Hw|].
    by eexists.
Qed.

(** The walk of a path with an empty segment stores no value. *)
Lemma walk_truncated_leaves before : ∀ after value cur cur',
  walk (before ++ "" :: after) value cur = Some cur' →
  ∀ q w, get_path q (Map cur') = Some (Str w) ↔ get_path q (Map cur) = Some (Str w).
Proof.
  induction before as [|key rest IH]; intros after value cur cur'.
  { rewrite app_nil_l, walk_empty_key. by intros [= ->]. }
  rewrite <-app_comm_cons, walk_cons.
  destruct (decide (key = "")) as [|Hkey]; [by intros [= ->]|].
  assert (Hcons : ∀ item item',
    cur !! key = None ∧ item = ∅ ∨ cur !! key = Some (Map item) →
    (∀ q w, get_path q (Map item') = Some (Str w) ↔
            get_path q (Map item) = Some (Str w)) →
    ∀ q w, get_path q (Map (<[key := Map item']> cur)) = Some (Str w) ↔
           get_path q (Map cur) = Some (Str w)).
  { intros item item' Hcur Hitem [|key' q] w; [simpl; naive_solver|].
    rewrite !get_path_cons. destruct (decide (key' = key)) as [->|].
    - rewrite lookup_insert_eq. simpl. rewrite Hitem.
      destruct Hcur as [[-> ->] | ->]; [|done]. simpl.
      split; [|done]. intros Hget. by apply get_path_empty in Hget.
    - by rewrite lookup_insert_ne. }
  destruct (rest ++ "" :: after) as [|k2 rest'] eqn:Hrest.
  { by destruct rest. }
  cbv zeta. destruct (cur !! key) as [v|] eqn:Hcur.
  - rewrite Hcur. destruct v as [s|item|n|b|];
      try (destruct (walk_nil _); [|done]; by intros [= ->]).
    destruct (walk (k2 :: rest') value item) as [item'|] eqn:Hw; [|done].
    simpl. intros [= <-]. apply (Hcons item); [by right|].
    rewrite <-Hrest in Hw. by apply (IH after value).
  - rewrite lookup_insert_eq.
    destruct (walk (k2 :: rest') value ∅) as [item'|] eqn:Hw; [|done].
    simpl. intros [= <-]. rewrite insert_insert_eq. apply (Hcons ∅); [by left|].
    rewrite <-Hrest in Hw. by apply (IH after value).
Qed.

Lemma walk_keys_nonempty keys : ∀ value cur cur',
  keys_nonempty (Map cur) = true → walk keys value cur = Some cur' →
  keys_nonempty (Map cur') = true.
Proof.
  induction keys as [|key rest IH]; intros value cur cur' Hcur.
  { intros ?. by simplify_eq/=. }
  rewrite walk_cons. destruct (decide (key = "")) as [|Hkey].
  { intros ?. by simplify_eq. }
  assert (Hk : bool_decide (key ≠ "") = true) by by apply bool_decide_eq_true.
  destruct rest as [|k2 rest].
  { intros ?. simplify_eq. by apply tree_forall_insert. }
  cbv zeta. destruct (cur !! key) as [v|] eqn:Hv.
  - rewrite Hv. destruct v as [s|item|n|b|];
      try (destruct (walk_nil _); intros ?; by simplify_eq/=).
    destruct (walk (k2 :: rest) value item) as [item'|] eqn:Hw; [|done].
    intros ?. simplify_eq/=. apply tree_forall_insert; [done..|].
    apply (IH value item); [|done].
    by apply (tree_forall_lookup _ _ _ _ Hcur Hv).
  - rewrite lookup_insert_eq.
    destruct (walk (k2 :: rest) value ∅) as [item'|] eqn:Hw; [|done].
    intros ?. simplify_eq/=. rewrite insert_insert_eq.
    apply tree_forall_insert; [done..|].
    apply (IH value ∅); [|done]. apply tree_forall_empty.
Qed.

Lemma ListMap_loop_keys_nonempty offset entries : ∀ result result',
  keys_nonempty (Map result) = true →
  ListMap_loop offset entries result = Some result' →
  keys_nonempty (Map result') = true.
Proof.
  induction entries as [|e entries IH]; intros result result' Hres.
  { intros ?. by simplify_eq/=. }
  simpl. rewrite ListMap_entry_walk.
  destruct (walk _ _ result) as [result1|] eqn:Hw; [|done].
  simpl. apply IH. by eapply walk_keys_nonempty.
Qed.

(** With maps only above the empty segment, the walk goes through. *)
Lemma walk_truncated_total before : ∀ after value cur,
  (∀ q v, q `prefix_of` before → q ≠ before → q ≠ [] →
          get_path q (Map cur) = Some v → ∃ m, v = Map m) →
  is_Some (walk (before ++ "" :: after) value cur).
Proof.
  induction before as [|key rest IH]; intros after value cur Hmaps; [by eexists|].
  rewrite <-app_comm_cons, walk_cons.
  destruct (decide (key = "")) as [|Hkey]; [by eexists|].
  destruct (rest ++ "" :: after) as [|k2 rest'] eqn:Hrest; [by destruct rest|].
  cbv zeta. destruct (cur !! key) as [v|] eqn:Hcur.
  - rewrite Hcur. destruct v as [s|item|n|b|].
    2: { destruct (IH after value item) as [item' Hitem'].
         - intros q v Hpre Hne Hnil Hget.
           apply (Hmaps (key :: q) v); [by apply prefix_cons|congruence|done|].
           by rewrite get_path_cons, Hcur.
         - rewrite <-Hrest, Hitem'. by eexists. }
    all: destruct rest as [|k3 rest];
      [injection Hrest as <- <-; by eexists|].
    all: edestruct (Hmaps [key]) as [m Hm];
      [apply prefix_cons, prefix_nil|done|done|by rewrite get_path_cons, Hcur|done].
  - rewrite lookup_insert_eq.
    destruct (IH after value ∅) as [item' Hitem'].
    + intros [|k q] v _ _ Hnil; [done|]. by rewrite get_path_cons, lookup_empty.
    + rewrite <-Hrest, Hitem'. by eexists.
Qed.

(** C4, the failing inputs.  A key is stored as a string, and below it
    lies a key with a trailing separator, or with a pair of separators:
    the offset-stripped path has an empty segment, and the loop panics at
    the segment before it, on the nil map it took from the string. *)
Example ListMap_empty_segment_panic :
  segments (normalize_offset "trento")
    (mkKVPair "trento/env1/sub/" "") = ["env1"; "sub"; ""] ∧
  ListMap recorder "trento" "trento"
    [mkKVPair "trento/env1" "v"; mkKVPair "trento/env1/sub/" ""] = Panics ∧
  segments (normalize_offset "") (mkKVPair "a/b//c" "y") = ["a"; "b"; ""; "c"] ∧
  ListMap recorder "" "" [mkKVPair "a" "x"; mkKVPair "a/b//c" "y"] = Panics.
Proof. split_and!; reflexivity. Qed.

(** X14.  A pair of separators and a trailing separator give an empty
    segment.  At the empty segment of an entry's path the descent stops:
    the segments after it and the value are dropped, and when the entry
    goes through no string is stored.  The entry goes through whenever the
    tree holds maps only above the empty segment, and whenever it would
    with an ordinary key in the place of the empty one.  No tree [ListMap]
    returns has the empty string as a key. *)
Theorem ListMap_empty_segment_truncates :
  (∀ a b, Split (a +:+ "//" +:+ b) "/" = Split a "/" ++ "" :: Split b "/") ∧
  (∀ a, Split (a +:+ "/") "/" = Split a "/" ++ [""]) ∧
  (∀ offset entry before after result value',
     segments offset entry = before ++ "" :: after →
     ListMap_entry offset result entry
       = ListMap_keys (before ++ [""]) value' result (MapAt [])) ∧
  (∀ offset entry after result,
     segments offset entry = "" :: after →
     ListMap_entry offset result entry = Some result) ∧
  (∀ offset entry before after result result',
     segments offset entry = before ++ "" :: after →
     ListMap_entry offset result entry = Some result' →
     ∀ q w, get_path q (Map result') = Some (Str w) ↔
            get_path q (Map result) = Some (Str w)) ∧
  (∀ offset entry before after result,
     segments offset entry = before ++ "" :: after →
     (∀ q v, q `prefix_of` before → q ≠ before → q ≠ [] →
             get_path q (Map result) = Some v → ∃ m, v = Map m) →
     is_Some (ListMap_entry offset result entry)) ∧
  (∀ offset entry before after result key value',
     segments offset entry = before ++ "" :: after →
     key ≠ "" →
     is_Some (ListMap_keys (before ++ [key]) value' result (MapAt [])) →
     is_Some (ListMap_entry offset result entry)) ∧
  (∀ {B} (k : kv B) prefix offset b result err,
     ListMap k prefix offset b = Returns (Some result) err →
     keys_nonempty (Map result) = true).
Proof.
  split_and!.
  - intros a b. rewrite !string_app_cons, string_app_nil_l.
    by rewrite Split_app_sep.
  - intros a. by rewrite Split_app_sep.
  - intros offset entry before after result value' Hsegs.
    rewrite ListMap_entry_walk, ListMap_keys_walk, Hsegs. apply walk_truncate.
  - intros offset entry after result Hsegs.
    by rewrite ListMap_entry_walk, Hsegs.
  - intros offset entry before after result result' Hsegs.
    rewrite ListMap_entry_walk, Hsegs. apply walk_truncated_leaves.
  - intros offset entry before after result Hsegs.
    rewrite ListMap_entry_walk, Hsegs. apply walk_truncated_total.
  - intros offset entry before after result key value' Hsegs Hkey.
    rewrite ListMap_entry_walk, ListMap_keys_walk, Hsegs.
    by apply walk_truncated_is_Some.
  - intros B k prefix offset b result err. unfold ListMap.
    destruct (list_ k prefix b) as [?|entries]; [done|].
    destruct (ListMap_loop _ entries ∅) as [result'|] eqn:Hloop; [|done].
    intros ?. simplify_eq. eapply ListMap_loop_keys_nonempty; [|done].
    apply tree_forall_empty.
Qed.

(** X14, witness: the entry kv/a/b//c on a tree that has a map at a. *)
Lemma ListMap_empty_segment_truncates_witness :
  ListMap_entry "kv/" {[ "a" := Map {[ "z" := Str "0" ]} ]} (mkKVPair "kv/a/b//c" "1")
    = Some {[ "a" := Map {[ "z" := Str "0"; "b" := Map ∅ ]} ]} ∧
  ListMap_entry "kv/" {[ "a" := Map {[ "z" := Str "0" ]} ]} (mkKVPair "kv/a/b//c" "1")
    = ListMap_keys ["a"; "b"; ""] "" {[ "a" := Map {[ "z" := Str "0" ]} ]}
        (MapAt []).
Proof.
  split; [compute_done|].
  exact (proj1 (proj2 (proj2 ListMap_empty_segment_truncates))
           "kv/" (mkKVPair "kv/a/b//c" "1") ["a"; "b"] ["c"] _ "" eq_refl).
Defined.

(** ** PutMap as a sequence of writes *)

Lemma schedule_nested_ind (P : schedule → Prop) :
  (∀ order, Forall (λ ks, P ks.2) order → P (Range order)) → ∀ s, P s.
Proof.
  intros HRange. fix IH 1. intros [order]. apply HRange.
  induction order as [|[key s'] order IHorder]; constructor; [apply IH|done].
Qed.

Lemma PutStr_each_app {B} (k : kv B) writes1 writes2 b :
  PutStr_each k (writes1 ++ writes2) b =
    match PutStr_each k writes1 b with
    | (b1, Some e) => (b1, Some e)
    | (b1, None) => PutStr_each k writes2 b1
    end.
Proof.
  revert b. induction writes1 as [|w writes1 IH]; intros b; [done|].
  simpl. destruct (PutStr k (Key w) (Value w) b) as [b1 [e|]]; [done|apply IH].
Qed.

Lemma PutMap_Range {B} (k : kv B) order prefix data b :
  PutMap k (Range order) prefix data b =
    PutMap_range k (PutMap k) prefix data order b.
Proof. done. Qed.

Lemma flatten_Range order prefix data :
  flatten (Range order) prefix data = order ≫= flatten_field flatten prefix data.
Proof. done. Qed.

(** A run of [PutMap] is the run of its writes one after the other, up to
    the first that fails. *)
Lemma PutMap_flatten {B} (k : kv B) s : ∀ prefix data b,
  PutMap k s prefix data b = PutStr_each k (flatten s prefix data) b.
Proof.
  induction s as [order IH] using schedule_nested_ind. intros prefix data b.
  rewrite PutMap_Range, flatten_Range. revert b.
  induction IH as [|[key s'] order Hs' _ IHorder]; intros b; [done|].
  rewrite bind_cons, PutStr_each_app. unfold flatten_field at 1. simpl.
  destruct (data !! key) as [v|]; [|apply IHorder].
  destruct v as [c|m|n|b'|]; simpl.
  - destruct (PutStr k _ c b) as [b1 [e|]]; [done|apply IHorder].
  - rewrite Hs'. destruct (PutStr_each k _ b) as [b1 [e|]]; [done|apply IHorder].
  - rewrite Hs'. destruct (PutStr_each k _ b) as [b1 [e|]]; [done|apply IHorder].
  - rewrite Hs'. destruct (PutStr_each k _ b) as [b1 [e|]]; [done|apply IHorder].
  - rewrite Hs'. destruct (PutStr_each k _ b) as [b1 [e|]]; [done|apply IHorder].
Qed.

Lemma flatten_empty s prefix : flatten s prefix ∅ = [].
Proof.
  destruct s as [order]. rewrite flatten_Range.
  induction order as [|[key s'] order IH]; [done|].
  rewrite bind_cons, IH. unfold flatten_field. simpl. by rewrite lookup_empty.
Qed.

Lemma PutStr_each_recorder writes log :
  PutStr_each recorder writes log = (log ++ writes, None).
Proof.
  revert log. induction writes as [|[key value] writes IH]; intros log.
  { by rewrite app_nil_r. }
  simpl. rewrite IH. by rewrite <-app_assoc.
Qed.

Lemma PutMap_first_failure {B} (k : kv B) s prefix data b written w rest b1 b2 e :
  flatten s prefix data = written ++ w :: rest →
  PutStr_each k written b = (b1, None) →
  put k w b1 = (b2, Some e) →
  PutMap k s prefix data b
    = (b2, Some (Wrap e "Error storing a new value in the KV storage")).
Proof.
  intros Hflat Hwritten Hput.
  rewrite PutMap_flatten, Hflat, PutStr_each_app, Hwritten. simpl.
  unfold PutStr. destruct w as [key value]. simpl. by rewrite Hput.
Qed.

Lemma PutStr_each_flaky bad writes log :
  (∀ w, w ∈ writes → Key w ≠ bad) →
  PutStr_each (flaky bad) writes log = (log ++ writes, None).
Proof.
  revert log. induction writes as [|[key value] writes IH]; intros log Hgood.
  { by rewrite app_nil_r. }
  simpl. unfold PutStr. simpl. rewrite decide_False.
  - rewrite IH, <-app_assoc; [done|]. intros w Hw. apply Hgood. by right.
  - apply (Hgood (mkKVPair key value)). left.
Qed.

(** C6.  [PutMap] makes its writes in turn.  When the backend refuses one,
    [PutMap] returns at once with the wrapped error and with the backend
    as that write left it: the writes made before stay, nothing is undone
    and nothing more is written.  When no write fails it returns nil.  On
    the backend that logs its writes and refuses one key, the log at the
    return is the old log and the writes made before the refused one. *)
Theorem PutMap_no_rollback {B} (k : kv B) (s : schedule) (prefix : string)
    (data : gmap string Any) (b : B) :
  (∀ written w rest b1 b2 e,
     flatten s prefix data = written ++ w :: rest →
     PutStr_each k written b = (b1, None) →
     put k w b1 = (b2, Some e) →
     PutMap k s prefix data b
       = (b2, Some (Wrap e "Error storing a new value in the KV storage"))) ∧
  (∀ b',
     PutStr_each k (flatten s prefix data) b = (b', None) →
     PutMap k s prefix data b = (b', None)) ∧
  (∀ bad log written w rest,
     flatten s prefix data = written ++ w :: rest →
     (∀ w', w' ∈ written → Key w' ≠ bad) →
     Key w = bad →
     PutMap (flaky bad) s prefix data log
       = (log ++ written,
          Some (Wrap "connection refused"
                  "Error storing a new value in the KV storage"))).
Proof.
  split_and!.
  - intros written w rest b1 b2 e. apply PutMap_first_failure.
  - intros b' Hall. by rewrite PutMap_flatten.
  - intros bad log written w rest Hflat Hgood Hbad.
    apply (PutMap_first_failure _ _ _ _ _ written w rest (log ++ written));
      [done|by apply PutStr_each_flaky|].
    simpl. by rewrite decide_True.
Qed.

(** C6, witness: the second write of a run is refused; the first stays
    in the log and the third is not made. *)
Lemma PutMap_no_rollback_witness :
  PutMap (flaky "kv/cluster1/nodes/h1") cluster_schedule "kv" cluster_tree []
  = ([mkKVPair "kv/cluster1/nodes/h2" "down"],
     Some (Wrap "connection refused" "Error storing a new value in the KV storage")).
Proof.
  exact (proj1 (PutMap_no_rollback (flaky "kv/cluster1/nodes/h1")
                  cluster_schedule "kv" cluster_tree [])
           [mkKVPair "kv/cluster1/nodes/h2" "down"]
           (mkKVPair "kv/cluster1/nodes/h1" "up")
           [mkKVPair "kv/cluster1/name" "c1"]
           [mkKVPair "kv/cluster1/nodes/h2" "down"]
           [mkKVPair "kv/cluster1/nodes/h2" "down"]
           "connection refused" eq_refl eq_refl eq_refl).
Defined.

(** ** Fields that are dropped *)

Lemma flatten_delete_non_decomposable s prefix data key value :
  data !! key = Some value → non_decomposable value = true →
  flatten s prefix data = flatten s prefix (delete key data).
Proof.
  intros Hkey Hvalue. destruct s as [order]. rewrite !flatten_Range.
  induction order as [|[key' s'] order IH]; [done|].
  rewrite !bind_cons, IH. f_equal. unfold flatten_field. simpl.
  destruct (decide (key' = key)) as [->|Hne].
  - rewrite Hkey, lookup_delete_eq.
    destruct value; try done; simpl; apply flatten_empty.
  - by rewrite lookup_delete_ne.
Qed.

Lemma flatten_all_non_decomposable s prefix data :
  map_Forall (λ _ v, non_decomposable v = true) data →
  flatten s prefix data = [].
Proof.
  intros Hall. destruct s as [order]. rewrite flatten_Range.
  induction order as [|[key' s'] order IH]; [done|].
  rewrite bind_cons, IH, app_nil_r. unfold flatten_field. simpl.
  destruct (data !! key') as [v|] eqn:Hv; [|done].
  apply Hall in Hv. destruct v; try done; simpl; apply flatten_empty.
Qed.

(** C10.  For a field whose value is neither a string nor a map, the
    recursive call gets the empty map, writes nothing and returns nil,
    whether or not the decoder reported an error; the run is that for the
    data without the field, and a map of such fields alone is a run
    without any write that returns nil. *)
Theorem PutMap_drops_non_decomposable {B} (k : kv B) (s : schedule)
    (prefix : string) (data : gmap string Any) (key : string) (value : Any)
    (b : B) :
  data !! key = Some value →
  non_decomposable value = true →
  (∀ s', PutMap k s' (Sprintf_s_slash_s prefix key) (Decode value).1 b = (b, None)) ∧
  (value ≠ Nil → is_Some (Decode value).2) ∧
  PutMap k s prefix data b = PutMap k s prefix (delete key data) b ∧
  (map_Forall (λ _ v, non_decomposable v = true) data →
   PutMap k s prefix data b = (b, None)).
Proof.
  intros Hkey Hvalue. split_and!.
  - intros s'. rewrite PutMap_flatten.
    destruct value; try done; simpl; by rewrite flatten_empty.
  - intros Hnil. destruct value; try done; by eexists.
  - rewrite !PutMap_flatten.
    by rewrite (flatten_delete_non_decomposable s prefix data key value).
  - intros Hall. by rewrite PutMap_flatten, flatten_all_non_decomposable.
Qed.

(** C10, witness: a record with a number field. *)
Lemma PutMap_drops_non_decomposable_witness :
  PutMap recorder node_schedule "kv" node_record []
  = PutMap recorder node_schedule "kv" (delete "port" node_record) [] ∧
  PutMap recorder node_schedule "kv" node_record []
  = ([mkKVPair "kv/name" "c1"], None).
Proof.
  split; [|reflexivity].
  exact (proj1 (proj2 (proj2 (PutMap_drops_non_decomposable recorder
    node_schedule "kv" node_record "port" (Int 8500) [] eq_refl eq_refl)))).
Defined.

(** ** Schedules *)

Lemma forallb_elem_of {A} (f : A → bool) (l : list A) :
  forallb f l = true ↔ ∀ x, x ∈ l → f x = true.
Proof.
  rewrite forallb_forall. by setoid_rewrite list_elem_of_In.
Qed.

Lemma fmap_bind_list {A C D} (f : A → list C) (g : C → D) (l : list A) :
  g <$> (l ≫= f) = l ≫= (λ x, g <$> f x).
Proof.
  induction l as [|x l IH]; [done|]. by rewrite !bind_cons, fmap_app, IH.
Qed.

Lemma schedule_forb_Range order v :
  schedule_forb (Range order) v = true ↔
  NoDup order.*1 ∧ dom (Decode v).1 = list_to_set order.*1 ∧
  ∀ key s', (key, s') ∈ order →
    ∃ v', (Decode v).1 !! key = Some v' ∧
          ((∃ c, v' = Str c) ∨ schedule_forb s' v' = true).
Proof.
  simpl. rewrite !andb_true_iff, !bool_decide_eq_true, forallb_elem_of.
  split.
  - intros [[Hnd Hdom] Hall]. split_and!; [done..|].
    intros key s' Hin. specialize (Hall _ Hin). simpl in Hall.
    destruct (_ !! key) as [v'|]; [|done]. exists v'. split; [done|].
    destruct v'; eauto.
  - intros (Hnd & Hdom & Hall). split_and!; [done..|].
    intros [key s'] Hin. destruct (Hall _ _ Hin) as (v' & Hv & Hv').
    cbn [fst snd]. rewrite Hv.
    destruct Hv' as [[c ->]|Hv']; [done|]. by destruct v'.
Qed.

Lemma default_schedule_Map (m : gmap string Any) :
  default_schedule (Map m)
  = Range ((λ kv, (kv.1, default_schedule kv.2)) <$> map_to_list m).
Proof.
  simpl. f_equal. rewrite map_fold_foldr.
  induction (map_to_list m) as [|[key v] l IH]; [done|]. simpl. by rewrite IH.
Qed.

(** Every value has a schedule: [range] yields its keys in some order. *)
Lemma default_schedule_forb v : schedule_forb (default_schedule v) v = true.
Proof.
  induction v as [s|m IH|n|b|] using Any_map_ind; try done.
  rewrite default_schedule_Map. apply schedule_forb_Range. simpl.
  rewrite <-list_fmap_compose. split_and!.
  - apply NoDup_fst_map_to_list.
  - apply set_eq. intros key.
    rewrite elem_of_dom, elem_of_list_to_set, list_elem_of_fmap. split.
    + intros [v Hv]. exists (key, v). by rewrite elem_of_map_to_list.
    + intros ([key' v] & -> & Hv%elem_of_map_to_list). by eexists.
  - intros key s' ([key' v] & [= -> ->] & Hv%elem_of_map_to_list)%list_elem_of_fmap.
    simpl in *. exists v. split; [done|]. right. by eapply IH.
Qed.

Lemma default_schedule_schedules data : schedules (default_schedule (Map data)) data.
Proof. apply default_schedule_forb. Qed.

(** ** The writes of PutMap and the leaves of the tree *)

Lemma path_key_cons prefix key p :
  path_key prefix (key :: p) = path_key (Sprintf_s_slash_s prefix key) p.
Proof. done. Qed.

Lemma leaf_entry_under prefix key pvs :
  leaf_entry prefix <$> under key pvs
  = leaf_entry (Sprintf_s_slash_s prefix key) <$> pvs.
Proof.
  unfold under. rewrite <-list_fmap_compose. apply list_fmap_ext.
  by intros _ [p v] _.
Qed.

Lemma bind_Permutation_ext {A C} (f g : A → list C) (l : list A) :
  (∀ x, x ∈ l → f x ≡ₚ g x) → l ≫= f ≡ₚ l ≫= g.
Proof.
  induction l as [|x l IH]; intros Hfg; [done|].
  rewrite !bind_cons. f_equiv.
  - apply Hfg. left.
  - apply IH. intros y Hy. apply Hfg. by right.
Qed.

Lemma schedule_keys_Permutation (order : list (string * schedule))
    (data : gmap string Any) :
  NoDup order.*1 → dom data = list_to_set order.*1 →
  order.*1 ≡ₚ (map_to_list data).*1.
Proof.
  intros Hnd Hdom. apply NoDup_Permutation; [done|apply NoDup_fst_map_to_list|].
  intros key. rewrite <-(elem_of_list_to_set (C := gset string)), <-Hdom, elem_of_dom.
  rewrite list_elem_of_fmap. split.
  - intros [v Hv]. exists (key, v). by rewrite elem_of_map_to_list.
  - intros ([key' v] & -> & Hv%elem_of_map_to_list). by eexists.
Qed.

(** Whatever the schedule, a complete run writes the string leaves of the
    data, each once, under the key built from its path. *)
Lemma flatten_leaves s : ∀ prefix v,
  schedule_forb s v = true →
  flatten s prefix (Decode v).1 ≡ₚ leaf_entry prefix <$> leaves (Map (Decode v).1).
Proof.
  induction s as [order IH] using schedule_nested_ind. intros prefix v.
  intros (Hnd & Hdom & Hall)%schedule_forb_Range.
  set (data := (Decode v).1) in *.
  set (g := λ key : string,
         match data !! key with
         | Some v' => leaf_entry prefix <$> under key (leaves v')
         | None => []
         end).
  rewrite flatten_Range.
  trans (order.*1 ≫= g).
  { rewrite list_fmap_bind. apply bind_Permutation_ext.
    intros [key s'] Hin. unfold flatten_field, g. simpl.
    destruct (Hall _ _ Hin) as (v' & -> & Hv').
    eapply Forall_forall in IH; [|exact Hin]. simpl in IH.
    rewrite leaf_entry_under.
    destruct Hv' as [[c ->]|Hv']; [done|].
    destruct v' as [c|m|n|b|]; [done|..]; by rewrite (IH _ _ Hv'). }
  rewrite (schedule_keys_Permutation order data Hnd Hdom).
  rewrite leaves_Map, fmap_bind_list, list_fmap_bind.
  apply bind_Permutation_ext.
  intros [key v'] Hin%elem_of_map_to_list. unfold g. simpl. by rewrite Hin.
Qed.

Lemma PutMap_recorder s prefix data log :
  PutMap recorder s prefix data log = (log ++ flatten s prefix data, None).
Proof. by rewrite PutMap_flatten, PutStr_each_recorder. Qed.

(** C9, as amended.  A run visits the fields in the order [range] yields
    them and finishes the subtree of a field before it goes on to the
    next: its writes are those of the depth-first walk [flatten] under the
    schedule of the run.  There is one write for each string leaf of the
    data, so the writes of two runs on the same data are the same up to
    their order. *)
Theorem PutMap_writes_up_to_order (s1 s2 : schedule) (prefix : string)
    (data : gmap string Any) (log : list KVPair) :
  schedules s1 data → schedules s2 data →
  ∃ writes1 writes2,
    PutMap recorder s1 prefix data log = (log ++ writes1, None) ∧
    PutMap recorder s2 prefix data log = (log ++ writes2, None) ∧
    writes1 = flatten s1 prefix data ∧
    writes1 ≡ₚ leaf_entry prefix <$> leaves (Map data) ∧
    length writes1 = length (leaves (Map data)) ∧
    writes1 ≡ₚ writes2.
Proof.
  intros Hs1 Hs2. exists (flatten s1 prefix data), (flatten s2 prefix data).
  pose proof (flatten_leaves s1 prefix (Map data) Hs1) as H1.
  pose proof (flatten_leaves s2 prefix (Map data) Hs2) as H2.
  simpl in H1, H2. split_and!.
  - apply PutMap_recorder.
  - apply PutMap_recorder.
  - done.
  - done.
  - by rewrite H1, length_fmap.
  - by rewrite H1, H2.
Qed.

(** C9, counterexample.  Two runs on the same map, one for each order in
    which [range] may yield the two keys, write in different orders. *)
Lemma PutMap_writes_up_to_order_counterexample :
  schedules (Range [("a", Range []); ("b", Range [])]) two_fields ∧
  schedules (Range [("b", Range []); ("a", Range [])]) two_fields ∧
  PutMap recorder (Range [("a", Range []); ("b", Range [])]) "kv" two_fields []
    = ([mkKVPair "kv/a" "1"; mkKVPair "kv/b" "2"], None) ∧
  PutMap recorder (Range [("b", Range []); ("a", Range [])]) "kv" two_fields []
    = ([mkKVPair "kv/b" "2"; mkKVPair "kv/a" "1"], None) ∧
  [mkKVPair "kv/a" "1"; mkKVPair "kv/b" "2"]
    ≠ [mkKVPair "kv/b" "2"; mkKVPair "kv/a" "1"].
Proof. split_and!; try compute_done. discriminate. Qed.

(** C9, witness: two runs over the cluster tree. *)
Lemma PutMap_writes_up_to_order_witness :
  ∃ writes1 writes2,
    PutMap recorder cluster_schedule "trento/v0/clusters" cluster_tree []
      = ([] ++ writes1, None) ∧
    PutMap recorder (default_schedule (Map cluster_tree)) "trento/v0/clusters"
      cluster_tree [] = ([] ++ writes2, None) ∧
    writes1 = flatten cluster_schedule "trento/v0/clusters" cluster_tree ∧
    writes1 ≡ₚ leaf_entry "trento/v0/clusters" <$> leaves (Map cluster_tree) ∧
    length writes1 = length (leaves (Map cluster_tree)) ∧
    writes1 ≡ₚ writes2.
Proof.
  exact (PutMap_writes_up_to_order cluster_schedule
           (default_schedule (Map cluster_tree)) "trento/v0/clusters"
           cluster_tree [] eq_refl (default_schedule_schedules cluster_tree)).
Defined.

(** ** The keys PutMap builds and the segments ListMap recovers *)

Lemma path_key_app a b p : path_key (a +:+ b) p = a +:+ path_key b p.
Proof.
  revert b. induction p as [|key p IH]; intros b; [done|].
  rewrite !path_key_cons. unfold Sprintf_s_slash_s.
  by rewrite string_app_assoc, IH.
Qed.

Lemma path_key_slash prefix key p :
  path_key prefix (key :: p) = prefix +:+ "/" +:+ path_key key p.
Proof.
  rewrite path_key_cons. unfold Sprintf_s_slash_s.
  by rewrite !path_key_app.
Qed.

Lemma path_key_snoc prefix p key :
  path_key prefix (p ++ [key]) = (path_key prefix p +:+ "/") +:+ key.
Proof.
  unfold path_key. rewrite foldl_snoc. unfold Sprintf_s_slash_s.
  by rewrite string_app_assoc.
Qed.

Lemma Split_path_key p : ∀ key,
  Forall (λ x, has_byte x "/" = false) (key :: p) →
  Split (path_key key p) "/" = key :: p.
Proof.
  induction p as [|k2 p IH]; intros key [Hkey Hp]%Forall_cons.
  - simpl. by apply Split_no_sep.
  - rewrite path_key_slash. rewrite string_app_cons, string_app_nil_l.
    rewrite Split_app_sep, (Split_no_sep key) by done.
    by rewrite IH.
Qed.

Lemma HasPrefix_nil s : HasPrefix s "" = true.
Proof. done. Qed.

Lemma HasPrefix_byte_app a b c :
  a ≠ "" → HasPrefix (a +:+ b) (String c "") = HasPrefix a (String c "").
Proof. destruct a as [|x a]; [done|]. intros _. by rewrite string_app_cons. Qed.

Lemma path_key_no_leading_space prefix key p :
  HasPrefix prefix " " = false → HasPrefix (path_key prefix (key :: p)) " " = false.
Proof.
  intros Hprefix. rewrite path_key_slash.
  destruct prefix as [|c prefix]; [done|].
  by rewrite HasPrefix_byte_app.
Qed.

Lemma path_key_no_trailing_space prefix p x :
  last p = Some x → x ≠ "" → HasSuffix x " " = false →
  HasSuffix (path_key prefix p) " " = false.
Proof.
  intros Hlast Hx Hsuffix.
  destruct p as [|key p _] using rev_ind; [done|].
  rewrite last_snoc in Hlast. injection Hlast as ->.
  rewrite path_key_snoc, HasSuffix_app_ne; [done..|].
  destruct x; [done|]. simpl. lia.
Qed.

(** The entry [PutMap] writes for a leaf is read back by [ListMap] at the
    path of the leaf. *)
Lemma segments_leaf_entry prefix p w :
  HasPrefix prefix " " = false → HasSuffix prefix "/" = false →
  p ≠ [] →
  Forall (λ x, x ≠ "" ∧ has_byte x "/" = false) p →
  (∀ x, last p = Some x → HasSuffix x " " = false) →
  segments (normalize_offset prefix) (leaf_entry prefix (p, w)) = p.
Proof.
  intros Hspace Hslash Hnil Hkeys Hlast.
  destruct p as [|key p]; [done|].
  unfold segments, modEntry, leaf_entry. cbn [Key fst snd].
  rewrite Trim_space_id.
  - rewrite normalize_offset_no_slash by done.
    rewrite path_key_slash, <-string_app_assoc, TrimPrefix_app.
    apply Split_path_key. eapply Forall_impl; [done|]. by intros x [_ ?].
  - by apply path_key_no_leading_space.
  - destruct (last (key :: p)) as [x|] eqn:Hx.
    + apply (path_key_no_trailing_space _ _ x); [done| |by apply Hlast].
      apply last_Some_elem_of in Hx.
      eapply Forall_forall in Hkeys; [|done]. by destruct Hkeys.
    + by apply last_None in Hx.
Qed.

(** ** Trees are determined by their leaves *)

Lemma is_tree_lookup (m : gmap string Any) key v :
  is_tree (Map m) = true → m !! key = Some v →
  tree_value v = true ∧ is_tree v = true.
Proof. intros Hm Hv. by destruct (tree_forall_lookup _ _ _ _ Hm Hv). Qed.

Lemma compact_lookup (m : gmap string Any) key v :
  compact (Map m) = true → m !! key = Some v →
  (∀ m', v = Map m' → size m' ≠ 0) ∧ compact v = true.
Proof.
  intros Hm Hv. destruct (tree_forall_lookup _ _ _ _ Hm Hv) as [Hsize ?].
  split; [|done]. intros m' ->. by apply bool_decide_eq_true in Hsize.
Qed.

(** A string, and a compact tree that is not empty, has a string leaf. *)
Lemma compact_has_leaf v :
  tree_value v = true → is_tree v = true → compact v = true →
  (∀ m, v = Map m → size m ≠ 0) →
  ∃ q w, get_path q v = Some (Str w).
Proof.
  induction v as [s|m IH|n|b|] using Any_map_ind; try done.
  - intros _ _ _ _. by exists [], s.
  - intros _ Htree Hcompact Hsize.
    destruct (map_choose m) as (key & x & Hx).
    { intros ->. by apply (Hsize ∅). }
    destruct (is_tree_lookup m key x Htree Hx) as [Hval Htree'].
    destruct (compact_lookup m key x Hcompact Hx) as [Hsize' Hcompact'].
    destruct (IH key x Hx Hval Htree' Hcompact' Hsize') as (q & w & Hget).
    exists (key :: q), w. by rewrite get_path_cons, Hx.
Qed.

Lemma tree_value_ext v : ∀ v',
  tree_value v = true → tree_value v' = true →
  is_tree v = true → is_tree v' = true →
  compact v = true → compact v' = true →
  (∀ q w, get_path q v = Some (Str w) ↔ get_path q v' = Some (Str w)) →
  v = v'.
Proof.
  induction v as [s|m IH|n|b|] using Any_map_ind; try done.
  - intros v' _ _ _ _ _ _ Hleaves.
    destruct (Hleaves [] s) as [Hget _]. simpl in Hget.
    by injection (Hget eq_refl).
  - intros [s'|m'|n'|b'|] _ Hval' Htree Htree' Hcompact Hcompact' Hleaves;
      try done.
    { destruct (Hleaves [] s') as [_ Hget]. by specialize (Hget eq_refl). }
    f_equal. apply map_eq. intros key.
    assert (Hsub : ∀ q w, get_path (key :: q) (Map m) = Some (Str w) ↔
                          get_path (key :: q) (Map m') = Some (Str w))
      by (intros; apply Hleaves).
    setoid_rewrite get_path_cons in Hsub.
    destruct (m !! key) as [x|] eqn:Hx, (m' !! key) as [x'|] eqn:Hx';
      simpl in Hsub; [| | |done].
    + f_equal.
      destruct (is_tree_lookup m key x Htree Hx).
      destruct (is_tree_lookup m' key x' Htree' Hx').
      destruct (compact_lookup m key x Hcompact Hx).
      destruct (compact_lookup m' key x' Hcompact' Hx').
      by apply (IH key x Hx).
    + destruct (is_tree_lookup m key x Htree Hx).
      destruct (compact_lookup m key x Hcompact Hx).
      destruct (compact_has_leaf x) as (q & w & Hget); [done..|].
      by apply Hsub in Hget.
    + destruct (is_tree_lookup m' key x' Htree' Hx').
      destruct (compact_lookup m' key x' Hcompact' Hx').
      destruct (compact_has_leaf x') as (q & w & Hget); [done..|].
      by apply Hsub in Hget.
Qed.

Lemma tree_ext (R T : gmap string Any) :
  is_tree (Map R) = true → is_tree (Map T) = true →
  compact (Map R) = true → compact (Map T) = true →
  (∀ q w, get_path q (Map R) = Some (Str w) ↔ get_path q (Map T) = Some (Str w)) →
  R = T.
Proof.
  intros HR HT HcR HcT Hleaves.
  assert (Map R = Map T) as [= ->]; [|done].
  by apply tree_value_ext.
Qed.

(** No string leaf lies below another. *)
Lemma leaf_paths_prefix_free p : ∀ q v w w',
  get_path p v = Some (Str w) → get_path q v = Some (Str w') →
  p `prefix_of` q → p = q.
Proof.
  induction p as [|key p IH]; intros q v w w' Hp Hq Hpre.
  - simpl in Hp. injection Hp as ->. by apply get_path_Str_inv in Hq as [-> _].
  - destruct q as [|key' q]; [by apply prefix_nil_inv in Hpre|].
    assert (key = key') as <- by by eapply prefix_cons_inv_1.
    apply prefix_cons_inv_2 in Hpre.
    destruct v as [|m| | |]; try done. rewrite get_path_cons in Hp, Hq.
    destruct (m !! key) as [x|]; [|done]. simpl in *.
    f_equal. by eapply IH.
Qed.

Lemma NoDup_leaf_paths v : NoDup (leaves v).*1.
Proof.
  apply NoDup_fmap_2_strong; [|apply NoDup_leaves].
  intros [p w] [q w'] Hp%elem_of_leaves Hq%elem_of_leaves Heq.
  simpl in Heq. subst q. congruence.
Qed.

(** The keys on the way to a leaf of a tree with storable keys. *)
Lemma leaf_path_storable p : ∀ v w,
  keys_storable v = true → get_path p v = Some (Str w) →
  Forall (λ x, x ≠ "" ∧ has_byte x "/" = false) p ∧
  (∀ x, last p = Some x → HasSuffix x " " = false).
Proof.
  induction p as [|key p IH]; intros v w Hkeys Hget; [done|].
  destruct v as [|m| | |]; try done. rewrite get_path_cons in Hget.
  destruct (m !! key) as [x|] eqn:Hx; [|done]. simpl in Hget.
  destruct (tree_forall_lookup _ _ _ _ Hkeys Hx) as [Hkey Hkeys'].
  destruct (IH x w Hkeys' Hget) as [Hall Hlast].
  unfold key_storable in Hkey.
  apply andb_true_iff in Hkey as [[Hne Hsep]%andb_true_iff Hspace].
  apply bool_decide_eq_true in Hne. apply negb_true_iff in Hsep.
  split; [by constructor|].
  intros y Hy. destruct p as [|k2 p].
  - simpl in Hy, Hget. injection Hy as <-. injection Hget as ->.
    by apply negb_true_iff in Hspace.
  - apply Hlast. by rewrite last_cons_cons in Hy.
Qed.

(** ** The round trip *)

Lemma leaf_entry_read_back prefix (T : gmap string Any) p w :
  HasPrefix prefix " " = false → HasSuffix prefix "/" = false →
  keys_storable (Map T) = true →
  (p, w) ∈ leaves (Map T) →
  segments (normalize_offset prefix) (leaf_entry prefix (p, w)) = p ∧ "" ∉ p.
Proof.
  intros Hspace Hslash Hkeys Hin%elem_of_leaves.
  destruct (leaf_path_storable p (Map T) w Hkeys Hin) as [Hall Hlast].
  split.
  - apply segments_leaf_entry; [done..| |done|done].
    intros ->. done.
  - intros Hempty. eapply Forall_forall in Hall; [|done]. by destruct Hall.
Qed.

(** C1, as amended.  Let the prefix neither start with a space nor end
    with the separator, and let the tree hold strings and maps only, no
    empty map below its root, and keys that are not empty, are free of the
    separator and at a leaf do not end with a space.  Then a run of
    [PutMap], under any schedule, succeeds, and [ListMap] with the prefix
    as its offset returns the tree from the entries written, in whatever
    order the backend lists them. *)
Theorem PutMap_ListMap_roundtrip {B} (k : kv B) (s : schedule)
    (prefix : string) (T : gmap string Any) (entries : list KVPair) (b : B) :
  HasPrefix prefix " " = false →
  HasSuffix prefix "/" = false →
  is_tree (Map T) = true →
  compact (Map T) = true →
  keys_storable (Map T) = true →
  schedules s T →
  entries ≡ₚ (PutMap recorder s prefix T []).1 →
  list_ k prefix b = inr entries →
  (PutMap recorder s prefix T []).2 = None ∧
  ListMap k prefix prefix b = Returns (Some T) None.
Proof.
  intros Hspace Hslash Htree Hcompact Hkeys Hs Hperm Hlist.
  rewrite PutMap_recorder in *. simpl in Hperm. split; [done|].
  pose proof (flatten_leaves s prefix (Map T) Hs) as Hflat. simpl in Hflat.
  rewrite Hflat in Hperm. clear Hflat.
  set (segs := segments (normalize_offset prefix)).
  assert (Hpvs : (λ e, (segs e, Value e)) <$> entries ≡ₚ leaves (Map T)).
  { rewrite Hperm, <-list_fmap_compose.
    match goal with |- ?l ≡ₚ _ => assert (l = leaves (Map T)) as ->; [|done] end.
    etrans; [|apply list_fmap_id].
    apply list_fmap_ext. intros _ [p w] Hin%list_elem_of_lookup_2.
    simpl. unfold segs.
    by destruct (leaf_entry_read_back prefix T p w) as [-> _]. }
  assert (Hentry : ∀ e, e ∈ entries →
            ∃ p w, (p, w) ∈ leaves (Map T) ∧ segs e = p ∧ "" ∉ p).
  { intros e He. rewrite Hperm in He.
    apply list_elem_of_fmap in He as ([p w] & -> & Hin).
    exists p, w. split; [done|].
    by apply (leaf_entry_read_back prefix T p w). }
  destruct (ListMap_prefix_free_spec k prefix prefix b entries Hlist)
    as (result & Hret & Htree' & Hcompact' & Hmem).
  - fold segs. intros e He. by destruct (Hentry e He) as (p & w & _ & -> & ?).
  - fold segs. intros e e' He He'.
    destruct (Hentry e He) as (p & w & Hp%elem_of_leaves & -> & _).
    destruct (Hentry e' He') as (q & w' & Hq%elem_of_leaves & -> & _).
    by apply (leaf_paths_prefix_free p q (Map T) w w').
  - rewrite Hret. do 2 f_equal. apply tree_ext; [done..|].
    intros q w. rewrite Hmem. fold segs.
    rewrite last_value_NoDup.
    + by rewrite Hpvs, elem_of_leaves.
    + rewrite Hpvs. apply NoDup_leaf_paths.
Qed.

(** C1, counterexamples.  A tree with an empty map below its root has no
    leaf paths at all, and loses the empty map; a key with the separator
    in it comes back as two keys; under a prefix that ends with the
    separator every path has an empty segment; the space at the end of a
    leaf key is trimmed away; and so is the space at the start of a prefix,
    which the offset then fails to match. *)
Lemma PutMap_ListMap_roundtrip_counterexample :
  (NoDup (leaves (Map {[ "a" := Map ∅ ]})).*1 ∧
   Forall (λ pv, "" ∉ pv.1) (leaves (Map {[ "a" := Map ∅ ]})) ∧
   PutMap recorder (Range [("a", Range [])]) "kv" {[ "a" := Map ∅ ]} []
     = ([], None) ∧
   ListMap recorder "kv" "kv" [] = Returns (Some ∅) None ∧
   size ({[ "a" := Map ∅ ]} : gmap string Any) ≠ size (∅ : gmap string Any)) ∧
  (NoDup (leaves (Map {[ "x/y" := Str "1" ]})).*1 ∧
   Forall (λ pv, "" ∉ pv.1) (leaves (Map {[ "x/y" := Str "1" ]})) ∧
   PutMap recorder (Range [("x/y", Range [])]) "kv" {[ "x/y" := Str "1" ]} []
     = ([mkKVPair "kv/x/y" "1"], None) ∧
   ListMap recorder "kv" "kv" [mkKVPair "kv/x/y" "1"]
     = Returns (Some {[ "x" := Map {[ "y" := Str "1" ]} ]}) None ∧
   ({[ "x/y" := Str "1" ]} : gmap string Any) !! "x"
     ≠ ({[ "x" := Map {[ "y" := Str "1" ]} ]} : gmap string Any) !! "x") ∧
  (NoDup (leaves (Map {[ "a" := Str "1" ]})).*1 ∧
   Forall (λ pv, "" ∉ pv.1) (leaves (Map {[ "a" := Str "1" ]})) ∧
   PutMap recorder (Range [("a", Range [])]) "kv/" {[ "a" := Str "1" ]} []
     = ([mkKVPair "kv//a" "1"], None) ∧
   ListMap recorder "kv/" "kv/" [mkKVPair "kv//a" "1"] = Returns (Some ∅) None ∧
   size ({[ "a" := Str "1" ]} : gmap string Any) ≠ size (∅ : gmap string Any)) ∧
  (NoDup (leaves (Map {[ "a " := Str "1" ]})).*1 ∧
   Forall (λ pv, "" ∉ pv.1) (leaves (Map {[ "a " := Str "1" ]})) ∧
   PutMap recorder (Range [("a ", Range [])]) "kv" {[ "a " := Str "1" ]} []
     = ([mkKVPair "kv/a " "1"], None) ∧
   ListMap recorder "kv" "kv" [mkKVPair "kv/a " "1"]
     = Returns (Some {[ "a" := Str "1" ]}) None ∧
   ({[ "a " := Str "1" ]} : gmap string Any) !! "a"
     ≠ ({[ "a" := Str "1" ]} : gmap string Any) !! "a") ∧
  (NoDup (leaves (Map {[ "a" := Str "1" ]})).*1 ∧
   Forall (λ pv, "" ∉ pv.1) (leaves (Map {[ "a" := Str "1" ]})) ∧
   PutMap recorder (Range [("a", Range [])]) " kv" {[ "a" := Str "1" ]} []
     = ([mkKVPair " kv/a" "1"], None) ∧
   ListMap recorder " kv" " kv" [mkKVPair " kv/a" "1"]
     = Returns (Some {[ "kv" := Map {[ "a" := Str "1" ]} ]}) None ∧
   ({[ "a" := Str "1" ]} : gmap string Any) !! "a"
     ≠ ({[ "kv" := Map {[ "a" := Str "1" ]} ]} : gmap string Any) !! "a").
Proof. split_and!; try compute_done; by vm_compute. Qed.

(** C1, witness: the cluster tree is written and read back. *)
Lemma PutMap_ListMap_roundtrip_witness :
  (PutMap recorder cluster_schedule "trento/v0/clusters" cluster_tree []).2 = None ∧
  ListMap recorder "trento/v0/clusters" "trento/v0/clusters"
    (PutMap recorder cluster_schedule "trento/v0/clusters" cluster_tree []).1
  = Returns (Some cluster_tree) None.
Proof.
  exact (PutMap_ListMap_roundtrip recorder cluster_schedule
           "trento/v0/clusters" cluster_tree
           [mkKVPair "trento/v0/clusters/cluster1/nodes/h2" "down";
            mkKVPair "trento/v0/clusters/cluster1/nodes/h1" "up";
            mkKVPair "trento/v0/clusters/cluster1/name" "c1"]
           (PutMap recorder cluster_schedule "trento/v0/clusters" cluster_tree []).1
           eq_refl eq_refl eq_refl eq_refl eq_refl eq_refl
           (Permutation_refl _) eq_refl).
Defined.

(** ** What every returned tree looks like *)

Lemma Split_pieces_sep_free s sep :
  Forall (λ x, has_byte x sep = false) (Split s sep).
Proof.
  induction s as [|c s IH]; simpl; [by repeat constructor|].
  destruct (decide (c = sep)) as [->|Hc]; [by constructor|].
  destruct (Split s sep) as [|piece pieces] eqn:E; [by apply Split_not_nil in E|].
  apply Forall_cons in IH as [Hpiece Hpieces]. constructor; [|done].
  simpl. rewrite Hpiece, orb_false_r. apply bool_decide_eq_false. congruence.
Qed.

(** The inner loop keeps what holds of every field, when it holds of the
    fields the loop may write. *)
Lemma walk_tree_forall P keys : ∀ value cur cur',
  (∀ key, key ∈ keys → key ≠ "" →
     P key (Str value) = true ∧ ∀ m, P key (Map m) = true) →
  tree_forall P (Map cur) = true → walk keys value cur = Some cur' →
  tree_forall P (Map cur') = true.
Proof.
  induction keys as [|key rest IH]; intros value cur cur' HP Hcur.
  { intros ?. by simplify_eq/=. }
  rewrite walk_cons. destruct (decide (key = "")) as [|Hkey].
  { intros ?. by simplify_eq. }
  destruct (HP key) as [HStr HMap]; [left|done|].
  assert (HP' : ∀ key', key' ∈ rest → key' ≠ "" →
            P key' (Str value) = true ∧ ∀ m, P key' (Map m) = true).
  { intros key' Hin. apply HP. by right. }
  destruct rest as [|k2 rest].
  { intros ?. simplify_eq. by apply tree_forall_insert. }
  cbv zeta. destruct (cur !! key) as [v|] eqn:Hv.
  - rewrite Hv. destruct v as [s|item|n|b|];
      try (destruct (walk_nil _); intros ?; by simplify_eq/=).
    destruct (walk (k2 :: rest) value item) as [item'|] eqn:Hw; [|done].
    intros ?. simplify_eq/=. apply tree_forall_insert; [done..|].
    apply (IH value item); [done| |done].
    by apply (tree_forall_lookup _ _ _ _ Hcur Hv).
  - rewrite lookup_insert_eq.
    destruct (walk (k2 :: rest) value ∅) as [item'|] eqn:Hw; [|done].
    intros ?. simplify_eq/=. rewrite insert_insert_eq.
    apply tree_forall_insert; [done..|].
    apply (IH value ∅); [done| |done]. apply tree_forall_empty.
Qed.

Lemma ListMap_loop_tree_forall P offset entries : ∀ result result',
  (∀ key, has_byte key "/" = false → key ≠ "" →
     (∀ value, P key (Str value) = true) ∧ ∀ m, P key (Map m) = true) →
  tree_forall P (Map result) = true →
  ListMap_loop offset entries result = Some result' →
  tree_forall P (Map result') = true.
Proof.
  induction entries as [|e entries IH]; intros result result' HP Hres.
  { intros ?. by simplify_eq/=. }
  simpl. rewrite ListMap_entry_walk.
  destruct (walk _ _ result) as [result1|] eqn:Hw; [|done].
  simpl. apply IH; [done|]. eapply walk_tree_forall; [|done..].
  intros key Hin Hkey. destruct (HP key) as [HStr HMap]; [|done|done].
  pose proof (Split_pieces_sep_free (modEntry offset e) "/") as Hfree.
  by eapply Forall_forall in Hfree.
Qed.

(** X1.  Every tree [ListMap] returns comes with the nil error and holds
    strings and maps only, under keys that are not empty and do not hold
    the separator. *)
Theorem ListMap_tree_shape {B} (k : kv B) (prefix offset : string) (b : B)
    (result : gmap string Any) (err : option error) :
  ListMap k prefix offset b = Returns (Some result) err →
  err = None ∧
  is_tree (Map result) = true ∧
  keys_nonempty (Map result) = true ∧
  keys_sep_free (Map result) = true.
Proof.
  unfold ListMap. destruct (list_ k prefix b) as [?|entries]; [done|].
  destruct (ListMap_loop _ entries ∅) as [result'|] eqn:Hloop; [|done].
  intros ?. simplify_eq. split_and!; [done|..].
  - eapply ListMap_loop_tree_forall; [|apply tree_forall_empty|done]. done.
  - eapply ListMap_loop_keys_nonempty; [apply tree_forall_empty|done].
  - eapply ListMap_loop_tree_forall; [|apply tree_forall_empty|done].
    intros key Hkey _. by rewrite Hkey.
Qed.


(** X1, witness: the entries of the end-to-end example give the cluster
    tree. *)
Lemma ListMap_tree_shape_witness :
  @None error = None ∧
  is_tree (Map cluster_tree) = true ∧
  keys_nonempty (Map cluster_tree) = true ∧
  keys_sep_free (Map cluster_tree) = true.
Proof.
  refine (ListMap_tree_shape recorder "trento/v0/clusters" "trento/v0/clusters"
    [mkKVPair "trento/v0/clusters/cluster1/name" "c1";
     mkKVPair "trento/v0/clusters/cluster1/nodes/h1" "up";
     mkKVPair "trento/v0/clusters/cluster1/nodes/h2" "down"]
    cluster_tree None _). compute_done.
Defined.

(** ** Where the strings of the tree come from *)

Lemma overwrites_cons key key' p q :
  key ≠ "" → p ≠ [] →
  overwrites (key :: p) (key' :: q) ↔ key = key' ∧ overwrites p q.
Proof.
  intros Hkey Hp. unfold overwrites. rewrite not_elem_of_cons. split.
  - intros (_ & [_ Hne] & Hpre).
    split; [by apply prefix_cons_inv_1 in Hpre|].
    split_and!; [done..|]. by apply prefix_cons_inv_2 in Hpre.
  - intros [-> (_ & Hne & Hpre)]. split_and!; [done|done|done|].
    by apply prefix_cons.
Qed.

(** The strings of the tree after one run of the inner loop. *)
Lemma walk_leaves p : ∀ v R R' q w,
  walk p v R = Some R' →
  get_path q (Map R') = Some (Str w) ↔
    (q = p ∧ w = v ∧ p ≠ [] ∧ "" ∉ p) ∨
    (get_path q (Map R) = Some (Str w) ∧ ¬ overwrites p q).
Proof.
  induction p as [|key rest IH]; intros v R R' q w.
  { intros ?. simplify_eq/=. split; [|by intros [(_ & _ & ? & _)|[? _]]].
    intros ?. right. split; [done|]. by intros (? & _). }
  rewrite walk_cons. destruct (decide (key = "")) as [->|Hkey].
  { intros ?. simplify_eq. split.
    - intros ?. right. split; [done|]. intros (_ & Hne & _). apply Hne. left.
    - intros [(_ & _ & _ & Hne)|[? _]]; [|done]. destruct Hne. left. }
  assert (Hother : ∀ key' q' x, key' ≠ key →
    get_path (key' :: q') (Map (<[key := x]> R)) = Some (Str w) ↔
      (key' :: q' = key :: rest ∧ w = v ∧ key :: rest ≠ [] ∧ "" ∉ key :: rest) ∨
      (get_path (key' :: q') (Map R) = Some (Str w) ∧
       ¬ overwrites (key :: rest) (key' :: q'))).
  { intros key' q' x Hne. rewrite !get_path_cons, lookup_insert_ne by done.
    split.
    - intros ?. right. split; [done|].
      intros (_ & _ & Hpre). by apply prefix_cons_inv_1 in Hpre.
    - intros [(? & _)|[? _]]; [congruence|done]. }
  assert (Hroot : ∀ R0 : gmap string Any,
    get_path [] (Map R0) = Some (Str w) ↔
      ([] = key :: rest ∧ w = v ∧ key :: rest ≠ [] ∧ "" ∉ key :: rest) ∨
      (get_path [] (Map R) = Some (Str w) ∧ ¬ overwrites (key :: rest) [])).
  { intros R0. simpl. split; [done|]. by intros [(? & _)|[? _]]. }
  destruct rest as [|k2 rest].
  { intros ?. simplify_eq. destruct q as [|key' q']; [apply Hroot|].
    destruct (decide (key' = key)) as [->|Hne]; [|by apply Hother].
    rewrite get_path_cons, lookup_insert_eq. simpl. split.
    - intros [-> ->]%get_path_Str_inv. left. split_and!; try done.
      by intros [<-|?%elem_of_nil]%elem_of_cons.
    - intros [([= ->] & -> & _)|[_ Hover]]; [done|]. destruct Hover.
      split_and!; [done| |by apply prefix_cons, prefix_nil].
      by intros [<-|?%elem_of_nil]%elem_of_cons. }
  cbv zeta. destruct (R !! key) as [x0|] eqn:HR.
  - rewrite HR. destruct x0 as [s|item|n|b|].
    2:{ destruct (walk (k2 :: rest) v item) as [item'|] eqn:Hw; [|done].
        rewrite bind_Some. intros ?. simplify_eq.
        destruct q as [|key' q']; [apply Hroot|].
        destruct (decide (key' = key)) as [->|Hne]; [|by apply Hother].
        rewrite !get_path_cons, lookup_insert_eq, HR. simpl.
        rewrite (IH v item item' q' w Hw), overwrites_cons by done. split.
        - intros [(-> & -> & ? & Hne)|[? Hover]].
          + left. split_and!; [done..|]. apply not_elem_of_cons. by split.
          + right. split; [done|]. by intros [_ ?].
        - intros [([= ->] & -> & _ & Hne)|[? Hover]].
          + left. split_and!; [done..|]. by apply not_elem_of_cons in Hne as [_ ?].
          + right. split; [done|]. intros ?. by apply Hover. }
    all: destruct (walk_nil (k2 :: rest)) eqn:Hnil; [|done];
      rewrite bind_Some; intros ?; simplify_eq;
      simpl in Hnil; destruct (decide (k2 = "")) as [->|]; [|done];
      (split;
       [ intros ?; right; split; [done|];
         intros (_ & Hne & _); apply Hne; right; left
       | intros [(_ & _ & _ & Hne)|[? _]]; [|done];
         destruct Hne; right; left ]).
  - rewrite lookup_insert_eq.
    destruct (walk (k2 :: rest) v ∅) as [item'|] eqn:Hw; [|done].
    rewrite bind_Some. intros ?. simplify_eq. rewrite insert_insert_eq.
    destruct q as [|key' q']; [apply Hroot|].
    destruct (decide (key' = key)) as [->|Hne]; [|by apply Hother].
    rewrite !get_path_cons, lookup_insert_eq, HR. simpl.
    rewrite (IH v ∅ item' q' w Hw). split.
    + intros [(-> & -> & ? & Hne)|[Hempty _]].
      * left. split_and!; [done..|]. apply not_elem_of_cons. by split.
      * by apply get_path_empty in Hempty.
    + intros [([= ->] & -> & _ & Hne)|[? _]]; [|done].
      left. split_and!; [done..|]. by apply not_elem_of_cons in Hne as [_ ?].
Qed.

Lemma walk_all_leaves pvs : ∀ R R' q w,
  walk_all pvs R = Some R' →
  get_path q (Map R') = Some (Str w) ↔
    (∃ before after, pvs = before ++ (q, w) :: after ∧ q ≠ [] ∧ ("" ∉ q) ∧
       ∀ p, p ∈ after.*1 → ¬ overwrites p q) ∨
    (get_path q (Map R) = Some (Str w) ∧ ∀ p, p ∈ pvs.*1 → ¬ overwrites p q).
Proof.
  induction pvs as [|[p v] pvs IH]; intros R R' q w.
  { intros ?. simplify_eq/=. split.
    - intros ?. right. split; [done|]. by intros p ?%elem_of_nil.
    - intros [(before & after & Heq & _)|[? _]]; [|done]. by destruct before. }
  simpl. destruct (walk p v R) as [R1|] eqn:Hw; [|done]. rewrite bind_Some.
  intros Hall. rewrite (IH R1 R' q w Hall), (walk_leaves p v R R1 q w Hw).
  split.
  - intros [(before & after & -> & Hq & Hne & Hafter)|[Hleaf Hlater]].
    + left. by exists ((p, v) :: before), after.
    + destruct Hleaf as [(-> & -> & Hp & Hne)|[Hleaf Hover]].
      * left. by exists [], pvs.
      * right. split; [done|]. by intros p' [->|?]%elem_of_cons; [|apply Hlater].
  - intros [(before & after & Heq & Hq & Hne & Hafter)|[Hleaf Hlater]].
    + destruct before as [|pv before]; simplify_eq/=.
      * right. split; [by left|done].
      * left. by exists before, after.
    + right. split.
      * right. split; [done|]. apply Hlater. left.
      * intros p' Hp'. apply Hlater. by right.
Qed.

(** X2.  The strings of a tree [ListMap] returns, for any entries: a
    string lies at a path exactly when an entry has that path and that
    value, the path has no empty segment, and no later entry assigns at or
    above the path. *)
Theorem ListMap_leaves_iff {B} (k : kv B) (prefix offset : string) (b : B)
    (entries : list KVPair) (result : gmap string Any) (err : option error)
    (q : list string) (w : string) :
  list_ k prefix b = inr entries →
  ListMap k prefix offset b = Returns (Some result) err →
  get_path q (Map result) = Some (Str w) ↔
  ∃ before e after,
    entries = before ++ e :: after ∧
    segments (normalize_offset offset) e = q ∧ Value e = w ∧ ("" ∉ q) ∧
    ∀ e', e' ∈ after → ¬ overwrites (segments (normalize_offset offset) e') q.
Proof.
  intros Hlist. unfold ListMap. rewrite Hlist, ListMap_loop_walk_all.
  destruct (walk_all _ ∅) as [result'|] eqn:Hall; [|done].
  intros ?. simplify_eq. rewrite (walk_all_leaves _ _ _ _ _ Hall). split.
  - intros [(before & after & Heq & Hq & Hne & Hafter)|[Hempty _]].
    2:{ by apply get_path_empty in Hempty. }
    apply fmap_app_inv in Heq as (before' & rest & -> & Hrest & ->).
    symmetry in Hrest.
    apply fmap_cons_inv in Hrest as (e & after' & [= -> ->] & -> & ->).
    exists before', e, after'. split_and!; [done..|].
    intros e' He'. apply Hafter. rewrite <-list_fmap_compose.
    apply list_elem_of_fmap. by exists e'.
  - intros (before & e & after & -> & <- & <- & Hne & Hafter). left.
    eexists (_ <$> before), (_ <$> after). rewrite fmap_app, fmap_cons.
    split_and!; [done|apply Split_not_nil|done|].
    intros p. rewrite <-list_fmap_compose.
    intros (e' & -> & He')%list_elem_of_fmap. by apply Hafter.
Qed.

(** X2, witness: the path a/b is written twice; the string the tree holds
    there is that of the later entry. *)
Lemma ListMap_leaves_iff_witness :
  get_path ["a"; "b"]
    (Map {[ "a" := Map {[ "b" := Str "2" ]}; "c" := Str "3" ]}) = Some (Str "2") ↔
  ∃ before e after,
    [mkKVPair "kv/a/b" "1"; mkKVPair "kv/c" "3"; mkKVPair "kv/a/b" "2"]
      = before ++ e :: after ∧
    segments (normalize_offset "kv") e = ["a"; "b"] ∧ Value e = "2" ∧
    ("" ∉ ["a"; "b"]) ∧
    ∀ e', e' ∈ after →
          ¬ overwrites (segments (normalize_offset "kv") e') ["a"; "b"].
Proof.
  refine (ListMap_leaves_iff recorder "kv" "kv"
    [mkKVPair "kv/a/b" "1"; mkKVPair "kv/c" "3"; mkKVPair "kv/a/b" "2"]
    [mkKVPair "kv/a/b" "1"; mkKVPair "kv/c" "3"; mkKVPair "kv/a/b" "2"]
    {[ "a" := Map {[ "b" := Str "2" ]}; "c" := Str "3" ]} None
    ["a"; "b"] "2" eq_refl _). compute_done.
Defined.

(** ** When the loop panics *)

Lemma before_empty_cons key rest :
  key ≠ "" → before_empty (key :: rest) = key :: before_empty rest.
Proof. intros. simpl. by rewrite decide_False. Qed.

Lemma not_blocked_short keys result :
  length (before_empty keys) ≤ 1 → ¬ blocked keys result.
Proof.
  intros Hlen (q & x & Hq & [q' Hpre] & Hne & _).
  destruct q as [|k q]; [done|]. rewrite Hpre in Hlen, Hne.
  destruct q, q'; simpl in *; [done|lia..].
Qed.

Lemma blocked_cons key k2 rest result :
  key ≠ "" →
  blocked (key :: k2 :: rest) result ↔
  ∃ x, result !! key = Some x ∧
       match x with
       | Map item => blocked (k2 :: rest) item
       | _ => k2 ≠ ""
       end.
Proof.
  intros Hkey. unfold blocked. rewrite before_empty_cons by done. split.
  - intros (q & x & Hq & [q' Hpre] & Hne & Hget & Hx).
    destruct q as [|k q]; [done|]. simplify_eq/=.
    destruct (result !! k) as [x0|] eqn:Hx0; [|done]. simpl in Hget.
    exists x0. split; [done|].
    destruct q as [|k' q].
    + simplify_eq/=. destruct x as [| m | | |]; try by (intros ->).
      by destruct (Hx m).
    + destruct x0; try done. exists (k' :: q), x. split_and!; try done.
      * by exists q'.
      * intros Heq. apply Hne. by rewrite Heq.
  - intros (x & Hx & Hcase).
    destruct x as [s|item|n|b|].
    2:{ destruct Hcase as (q & x & Hq & [q' Hpre] & Hne & Hget & Hx').
        exists (key :: q), x. split_and!; try done.
        - exists q'. by rewrite Hpre.
        - intros [= Heq]. done.
        - simpl. by rewrite Hx. }
    all: match goal with H : _ !! ?k = Some ?x |- _ => exists [k], x end;
      split_and!;
      [ done
      | by eexists
      | simpl; by rewrite decide_False by done
      | simpl; by rewrite Hx
      | done ].
Qed.

(** The inner loop panics exactly when a value that is not a map lies in
    its way. *)
Lemma walk_None keys : ∀ value result,
  walk keys value result = None ↔ blocked keys result.
Proof.
  induction keys as [|key rest IH]; intros value result.
  { split; [done|]. by intros ?%not_blocked_short; [|simpl; lia]. }
  destruct (decide (key = "")) as [->|Hkey].
  { rewrite walk_empty_key. split; [done|].
    by intros ?%not_blocked_short; [|simpl; lia]. }
  destruct rest as [|k2 rest].
  { rewrite walk_last by done. split; [done|].
    intros ?%not_blocked_short; [done|]. simpl. rewrite decide_False by done.
    simpl. lia. }
  rewrite blocked_cons by done.
  destruct (result !! key) as [x|] eqn:Hx.
  - destruct x as [s|item|n|b|].
    2:{ rewrite (walk_into _ _ _ _ _ item) by done.
        split.
        - destruct (walk (k2 :: rest) value item) eqn:Hw; [done|]. intros _.
          exists (Map item). split; [done|]. by apply (IH value).
        - intros (x & [= <-] & Hw). apply (IH value) in Hw. by rewrite Hw. }
    all: rewrite (walk_blocked _ _ _ _ _ _ Hkey Hx) by done; simpl;
      destruct (decide (k2 = "")); split;
      [ done | by intros (? & [= <-] & ?) | by eexists | done ].
  - rewrite walk_fresh by done. split; [|by intros (? & ? & ?)].
    destruct (walk (k2 :: rest) value ∅) eqn:Hw; [done|]. intros _.
    apply IH in Hw as (q & x & Hq & _ & _ & Hget & _).
    destruct q; [done|]. simpl in Hget. by rewrite lookup_empty in Hget.
Qed.

Lemma ListMap_loop_None offset entries : ∀ result,
  ListMap_loop offset entries result = None ↔
  ∃ before e after result',
    entries = before ++ e :: after ∧
    ListMap_loop offset before result = Some result' ∧
    blocked (segments offset e) result'.
Proof.
  induction entries as [|e entries IH]; intros result.
  { split; [done|]. intros (before & ? & ? & ? & Heq & _). by destruct before. }
  simpl. rewrite ListMap_entry_walk. split.
  - destruct (walk _ _ result) as [result1|] eqn:Hw.
    + rewrite bind_Some. intros (before & e' & after & result' & -> & Hloop & Hb)%IH.
      exists (e :: before), e', after, result'. split_and!; [done| |done].
      simpl. by rewrite ListMap_entry_walk, Hw.
    + intros _. exists [], e, entries, result. split_and!; [done..|].
      by eapply walk_None.
  - intros (before & e' & after & result' & Heq & Hloop & Hb).
    destruct before as [|e0 before]; simplify_eq/=.
    + eapply walk_None in Hb. by rewrite Hb.
    + rewrite ListMap_entry_walk in Hloop.
      destruct (walk _ _ result) as [result1|]; [|done].
      rewrite bind_Some in *. apply IH. by exists before, e', after, result'.
Qed.

(** X3.  [ListMap] panics exactly when, for some entry, the tree built from
    the entries before it holds a value that is not a map strictly above
    the end of the keys the loop gets to for that entry. *)
Theorem ListMap_panics_iff {B} (k : kv B) (prefix offset : string) (b : B)
    (entries : list KVPair) :
  list_ k prefix b = inr entries →
  ListMap k prefix offset b = Panics ↔
  ∃ before e after result,
    entries = before ++ e :: after ∧
    ListMap_loop (normalize_offset offset) before ∅ = Some result ∧
    blocked (segments (normalize_offset offset) e) result.
Proof.
  intros Hlist. rewrite <-ListMap_loop_None. unfold ListMap. rewrite Hlist.
  by destruct (ListMap_loop _ entries ∅).
Qed.

(** X3, witness: a string is stored at a, then a value below a. *)
Lemma ListMap_panics_iff_witness :
  ListMap recorder "kv" "kv" [mkKVPair "kv/a" "1"; mkKVPair "kv/a/b" "2"] = Panics ↔
  ∃ before e after result,
    [mkKVPair "kv/a" "1"; mkKVPair "kv/a/b" "2"] = before ++ e :: after ∧
    ListMap_loop (normalize_offset "kv") before ∅ = Some result ∧
    blocked (segments (normalize_offset "kv") e) result.
Proof.
  exact (ListMap_panics_iff recorder "kv" "kv"
           [mkKVPair "kv/a" "1"; mkKVPair "kv/a/b" "2"]
           [mkKVPair "kv/a" "1"; mkKVPair "kv/a/b" "2"] eq_refl).
Defined.

(** ** The order of the entries *)

(** X4.  When the offset-stripped paths of the entries have no empty
    segment, are pairwise distinct and none is a prefix of another, the
    tree [ListMap] returns does not depend on the order in which the
    backend lists the entries. *)
Theorem ListMap_order_independent {B} (k : kv B) (prefix offset : string)
    (b b' : B) (entries entries' : list KVPair) :
  list_ k prefix b = inr entries →
  list_ k prefix b' = inr entries' →
  entries ≡ₚ entries' →
  (∀ e, e ∈ entries → "" ∉ segments (normalize_offset offset) e) →
  NoDup (segments (normalize_offset offset) <$> entries) →
  (∀ e e', e ∈ entries → e' ∈ entries →
     segments (normalize_offset offset) e
       `prefix_of` segments (normalize_offset offset) e' →
     segments (normalize_offset offset) e = segments (normalize_offset offset) e') →
  ListMap k prefix offset b = ListMap k prefix offset b'.
Proof.
  intros Hlist Hlist' Hperm Hne Hnodup Hfree.
  destruct (ListMap_prefix_free_spec k prefix offset b entries)
    as (R & -> & Htree & Hcompact & Hleaves); [done..|].
  destruct (ListMap_prefix_free_spec k prefix offset b' entries')
    as (R' & -> & Htree' & Hcompact' & Hleaves'); [done|..].
  { intros e He. apply Hne. by rewrite Hperm. }
  { intros e e' He He'. apply Hfree; by rewrite Hperm. }
  f_equal. f_equal. apply tree_ext; [done..|].
  intros q w. rewrite Hleaves, Hleaves'.
  rewrite !last_value_NoDup.
  - by rewrite Hperm.
  - rewrite <-list_fmap_compose. simpl. by rewrite <-Hperm.
  - by rewrite <-list_fmap_compose.
Qed.

(** X4, witness: two entries, listed in either order. *)
Lemma ListMap_order_independent_witness :
  ListMap recorder "kv" "kv" [mkKVPair "kv/a/b" "1"; mkKVPair "kv/c" "3"]
  = ListMap recorder "kv" "kv" [mkKVPair "kv/c" "3"; mkKVPair "kv/a/b" "1"].
Proof.
  refine (ListMap_order_independent recorder "kv" "kv"
    [mkKVPair "kv/a/b" "1"; mkKVPair "kv/c" "3"]
    [mkKVPair "kv/c" "3"; mkKVPair "kv/a/b" "1"]
    [mkKVPair "kv/a/b" "1"; mkKVPair "kv/c" "3"]
    [mkKVPair "kv/c" "3"; mkKVPair "kv/a/b" "1"]
    eq_refl eq_refl (perm_swap _ _ _) _ _ _).
  - apply Forall_forall. compute_done.
  - compute_done.
  - apply (Forall_pairs (λ e e',
      segments (normalize_offset "kv") e `prefix_of` segments (normalize_offset "kv") e' →
      segments (normalize_offset "kv") e = segments (normalize_offset "kv") e')).
    compute_done.
Defined.

(** ** Spaces around the keys *)

Lemma TrimLeft_head cutset s : ∀ c s',
  TrimLeft s cutset = String c s' → has_byte cutset c = false.
Proof.
  induction s as [|a s IH]; intros c s'; simpl; [done|].
  destruct (has_byte cutset a) eqn:Ha; [apply IH|].
  intros ?. by simplify_eq.
Qed.

Lemma TrimRight_head cutset t c r :
  TrimRight t cutset = String c r → ∃ t', t = String c t'.
Proof.
  destruct t as [|a t]; simpl; [done|].
  destruct (TrimRight t cutset); [destruct (has_byte cutset a)|];
    intros ?; simplify_eq; by eexists.
Qed.

Lemma TrimRight_idemp cutset t :
  TrimRight (TrimRight t cutset) cutset = TrimRight t cutset.
Proof.
  induction t as [|a t IH]; simpl; [done|].
  destruct (TrimRight t cutset) as [|a' u] eqn:Hu.
  - destruct (has_byte cutset a) eqn:Ha; simpl; [done|]. by rewrite Ha.
  - change (TrimRight (String a (String a' u)) cutset)
      with (match TrimRight (String a' u) cutset with
            | EmptyString =>
                if has_byte cutset a then EmptyString else String a EmptyString
            | t0 => String a t0
            end).
    by rewrite IH.
Qed.

Lemma Trim_idemp s cutset : Trim (Trim s cutset) cutset = Trim s cutset.
Proof.
  unfold Trim. rewrite (TrimLeft_id (TrimRight _ _)); [apply TrimRight_idemp|].
  intros c s' [t' Ht']%TrimRight_head. by apply TrimLeft_head in Ht'.
Qed.

Lemma modEntry_trim_key offset entry :
  modEntry offset (trim_key entry) = modEntry offset entry.
Proof. unfold modEntry. simpl. by rewrite Trim_idemp. Qed.

Lemma ListMap_loop_trim_key offset entries : ∀ result,
  ListMap_loop offset (trim_key <$> entries) result
    = ListMap_loop offset entries result.
Proof.
  induction entries as [|e entries IH]; intros result; [done|].
  simpl. rewrite !ListMap_entry_walk. unfold segments.
  rewrite modEntry_trim_key. simpl.
  destruct (walk _ _ result); simpl; [apply IH|done].
Qed.

(** X5.  The spaces around the keys of the entries do not count: [ListMap]
    gives the same on the entries with these spaces removed. *)
Theorem ListMap_trims_keys {B} (k : kv B) (prefix prefix' offset : string)
    (b b' : B) (entries : list KVPair) :
  list_ k prefix b = inr entries →
  list_ k prefix' b' = inr (trim_key <$> entries) →
  ListMap k prefix offset b = ListMap k prefix' offset b'.
Proof.
  intros Hlist Hlist'. unfold ListMap.
  by rewrite Hlist, Hlist', ListMap_loop_trim_key.
Qed.

(** X5, witness: keys with leading and trailing spaces. *)
Lemma ListMap_trims_keys_witness :
  ListMap recorder " kv" "kv" [mkKVPair " kv/a/b" "1"; mkKVPair " kv/c  " "3"]
  = ListMap recorder "kv" "kv" [mkKVPair "kv/a/b" "1"; mkKVPair "kv/c" "3"].
Proof.
  exact (ListMap_trims_keys recorder " kv" "kv" "kv"
    [mkKVPair " kv/a/b" "1"; mkKVPair " kv/c  " "3"]
    [mkKVPair "kv/a/b" "1"; mkKVPair "kv/c" "3"]
    [mkKVPair " kv/a/b" "1"; mkKVPair " kv/c  " "3"] eq_refl eq_refl).
Defined.

(** ** Reading one level deeper *)

Lemma HasPrefix_inv prefix : ∀ s,
  HasPrefix s prefix = true → ∃ r, s = prefix +:+ r.
Proof.
  induction prefix as [|p prefix IH]; intros s; simpl.
  { intros _. by exists s. }
  destruct s as [|c s]; [done|].
  intros [->%bool_decide_eq_true [r ->]%IH]%andb_true_iff.
  exists r. by rewrite string_app_cons.
Qed.

Lemma HasSuffix_byte s c :
  has_byte s c = false → HasSuffix s (String c "") = false.
Proof.
  induction s as [|a s IH]; simpl; [done|].
  intros [Ha Hs]%orb_false_iff. rewrite IH, orb_false_r by done.
  apply bool_decide_eq_false. intros ?. simplify_eq.
  by rewrite bool_decide_eq_false in Ha.
Qed.

(** The inner loop below a first key that holds a map, or nothing yet. *)
Lemma walk_under seg p value cur item :
  seg ≠ "" → p ≠ [] →
  cur !! seg = Some (Map item) ∨ (cur !! seg = None ∧ item = ∅) →
  walk (seg :: p) value cur =
    item' ← walk p value item; Some (<[seg := Map item']> cur).
Proof.
  intros Hseg Hp Hcur. destruct p as [|k2 rest]; [done|].
  destruct Hcur as [Hcur|[Hcur ->]].
  - by apply walk_into.
  - by apply walk_fresh.
Qed.

Lemma ListMap_loop_under offset offset' seg entries : ∀ item cur,
  seg ≠ "" →
  (∀ e, e ∈ entries → segments offset e = seg :: segments offset' e) →
  ListMap_loop offset entries (<[seg := Map item]> cur) =
    m ← ListMap_loop offset' entries item; Some (<[seg := Map m]> cur).
Proof.
  induction entries as [|e entries IH]; intros item cur Hseg Hsegs; [done|].
  simpl. rewrite !ListMap_entry_walk, Hsegs by left.
  rewrite (walk_under _ _ _ _ item); [|done|apply Split_not_nil|].
  2:{ left. by rewrite lookup_insert_eq. }
  destruct (walk _ _ item) as [item'|]; [|done].
  rewrite !bind_Some, insert_insert_eq. apply IH; [done|].
  intros e' He'. apply Hsegs. by right.
Qed.

Lemma segments_under offset seg entry :
  seg ≠ "" → has_byte seg "/" = false →
  HasPrefix (Trim (Key entry) " ") (offset +:+ seg +:+ "/") = true →
  segments offset entry
    = seg :: segments (normalize_offset (offset +:+ seg)) entry.
Proof.
  intros Hseg Hfree [r Hr]%HasPrefix_inv.
  rewrite normalize_offset_no_slash.
  2:{ rewrite HasSuffix_app_ne; [by apply HasSuffix_byte|done|].
      destruct seg; [done|]. simpl. lia. }
  unfold segments, modEntry, Sprintf_s_slash. rewrite Hr.
  rewrite <-(string_app_assoc offset seg "/"), TrimPrefix_app.
  rewrite !string_app_assoc, TrimPrefix_app.
  rewrite string_app_cons, string_app_nil_l.
  by rewrite Split_app_sep, Split_no_sep.
Qed.

(** X6.  When the key of every entry continues the offset with the same
    segment and a separator, the tree [ListMap] returns has that segment
    as its only field, and what lies below it is what [ListMap] returns
    for the offset one segment deeper.  The one panics when the other
    does. *)
Theorem ListMap_one_level_deeper {B} (k : kv B) (prefix offset seg : string)
    (b : B) (entries : list KVPair) :
  list_ k prefix b = inr entries →
  entries ≠ [] →
  seg ≠ "" → has_byte seg "/" = false →
  (∀ e, e ∈ entries →
     HasPrefix (Trim (Key e) " ") (normalize_offset offset +:+ seg +:+ "/") = true) →
  ListMap k prefix offset b =
    match ListMap k prefix (normalize_offset offset +:+ seg) b with
    | Returns (Some m) err => Returns (Some {[ seg := Map m ]}) err
    | other => other
    end.
Proof.
  intros Hlist Hne Hseg Hfree Hkeys. unfold ListMap. rewrite Hlist.
  set (noff := normalize_offset offset) in *.
  set (noff' := normalize_offset (noff +:+ seg)).
  assert (Hsegs : ∀ e, e ∈ entries → segments noff e = seg :: segments noff' e).
  { intros e He. apply segments_under; [done..|]. by apply Hkeys. }
  destruct entries as [|e entries]; [done|]. simpl.
  rewrite !ListMap_entry_walk, Hsegs by left.
  rewrite (walk_under _ _ _ _ ∅); [|done|apply Split_not_nil|by right].
  destruct (walk _ _ ∅) as [item'|]; [|done].
  rewrite !bind_Some, (ListMap_loop_under noff noff')
    by (done || by intros; apply Hsegs; right).
  destruct (ListMap_loop noff' entries item') as [m|]; [|done].
  by rewrite bind_Some, insert_empty.
Qed.

(** X6, witness: the entries of the end-to-end example, read at the offset
    of the clusters and at the offset of the cluster. *)
Lemma ListMap_one_level_deeper_witness :
  ListMap recorder "trento/v0" "trento/v0/clusters"
    [mkKVPair "trento/v0/clusters/cluster1/name" "c1";
     mkKVPair "trento/v0/clusters/cluster1/nodes/h1" "up"] =
  match ListMap recorder "trento/v0"
          (normalize_offset "trento/v0/clusters" +:+ "cluster1")
          [mkKVPair "trento/v0/clusters/cluster1/name" "c1";
           mkKVPair "trento/v0/clusters/cluster1/nodes/h1" "up"] with
  | Returns (Some m) err => Returns (Some {[ "cluster1" := Map m ]}) err
  | other => other
  end.
Proof.
  refine (ListMap_one_level_deeper recorder "trento/v0" "trento/v0/clusters"
    "cluster1"
    [mkKVPair "trento/v0/clusters/cluster1/name" "c1";
     mkKVPair "trento/v0/clusters/cluster1/nodes/h1" "up"]
    [mkKVPair "trento/v0/clusters/cluster1/name" "c1";
     mkKVPair "trento/v0/clusters/cluster1/nodes/h1" "up"]
    eq_refl _ _ eq_refl _); [done|done|].
  apply Forall_forall. compute_done.
Defined.

(** ** Where an error of PutMap comes from *)

Lemma PutStr_each_error {B} (k : kv B) writes : ∀ b b' err,
  PutStr_each k writes b = (b', Some err) →
  ∃ written w rest b1 e,
    writes = written ++ w :: rest ∧
    PutStr_each k written b = (b1, None) ∧
    put k w b1 = (b', Some e) ∧
    err = Wrap e "Error storing a new value in the KV storage".
Proof.
  induction writes as [|w writes IH]; intros b b' err; [done|].
  simpl. unfold PutStr.
  destruct (put k (mkKVPair (Key w) (Value w)) b) as [b1 [e|]] eqn:Hput.
  - intros ?. simplify_eq. exists [], w, writes, b, e.
    split_and!; [done..| |done]. by destruct w.
  - intros (written & w' & rest & b2 & e & -> & Hwritten & Hput' & ->)%IH.
    exists (w :: written), w', rest, b2, e. split_and!; [done| |done..].
    simpl. unfold PutStr. by rewrite Hput.
Qed.

(** X7.  An error [PutMap] returns is the error of the first write the
    backend refused, wrapped once with the message of [PutStr] whatever the
    depth of the field, and the backend is as that write left it. *)
Theorem PutMap_error_origin {B} (k : kv B) (s : schedule) (prefix : string)
    (data : gmap string Any) (b b' : B) (err : error) :
  PutMap k s prefix data b = (b', Some err) →
  ∃ written w rest b1 e,
    flatten s prefix data = written ++ w :: rest ∧
    PutStr_each k written b = (b1, None) ∧
    put k w b1 = (b', Some e) ∧
    err = Wrap e "Error storing a new value in the KV storage".
Proof. rewrite PutMap_flatten. apply PutStr_each_error. Qed.

(** X7, witness: the run in which the write to h1 is refused. *)
Lemma PutMap_error_origin_witness :
  ∃ written w rest b1 e,
    flatten cluster_schedule "kv" cluster_tree = written ++ w :: rest ∧
    PutStr_each (flaky "kv/cluster1/nodes/h1") written [] = (b1, None) ∧
    put (flaky "kv/cluster1/nodes/h1") w b1
      = ([mkKVPair "kv/cluster1/nodes/h2" "down"], Some e) ∧
    Wrap "connection refused" "Error storing a new value in the KV storage"
      = Wrap e "Error storing a new value in the KV storage".
Proof.
  exact (PutMap_error_origin (flaky "kv/cluster1/nodes/h1") cluster_schedule
           "kv" cluster_tree [] [mkKVPair "kv/cluster1/nodes/h2" "down"]
           (Wrap "connection refused" "Error storing a new value in the KV storage")
           eq_refl).
Defined.

(** ** What PutMap writes *)

(** Every write of a run, under any order of the fields, is a string of
    the data under the key built from its path. *)
Lemma flatten_origin s : ∀ prefix data w,
  w ∈ flatten s prefix data →
  ∃ p, p ≠ [] ∧ get_path p (Map data) = Some (Str (Value w)) ∧
       Key w = path_key prefix p.
Proof.
  induction s as [order IH] using schedule_nested_ind. intros prefix data w.
  rewrite flatten_Range, list_elem_of_bind. intros ([key s'] & Hw & Hin).
  eapply Forall_forall in IH; [|exact Hin]. simpl in IH.
  unfold flatten_field in Hw. simpl in Hw.
  destruct (data !! key) as [v|] eqn:Hv; [|by apply elem_of_nil in Hw].
  destruct v as [c|m|n|b|]; simpl in Hw;
    try (rewrite flatten_empty in Hw; by apply elem_of_nil in Hw).
  - apply list_elem_of_singleton in Hw as ->. exists [key].
    split_and!; [done| |done]. simpl. by rewrite Hv.
  - apply IH in Hw as (p & _ & Hget & Hkey). exists (key :: p).
    split_and!; [done| |done]. rewrite get_path_cons. by rewrite Hv.
Qed.

Lemma path_key_HasPrefix prefix p :
  p ≠ [] → HasPrefix (path_key prefix p) (prefix +:+ "/") = true.
Proof.
  destruct p as [|key p]; [done|]. intros _.
  rewrite path_key_slash, <-string_app_assoc. apply HasPrefix_app.
Qed.

Lemma PutStr_each_invariant {B} (k : kv B) (I : B → Prop) writes : ∀ b,
  I b → (∀ w b0, w ∈ writes → I b0 → I (put k w b0).1) →
  I (PutStr_each k writes b).1.
Proof.
  induction writes as [|w writes IH]; intros b Hb Hput; [done|].
  simpl. unfold PutStr.
  pose proof (Hput w b (list_elem_of_here _ _) Hb) as Hb1.
  destruct w as [key value]. simpl in *.
  destruct (put k (mkKVPair key value) b) as [b1 [e|]]; [done|].
  apply IH; [done|]. intros w b0 Hw. apply Hput. by right.
Qed.

(** X8.  [PutMap] reaches the backend only through writes of strings of
    the data, each under the key built from the prefix and the path of the
    string: what holds of the backend and is kept by every such write
    holds when [PutMap] returns, with or without an error and under any
    order of the fields. *)
Theorem PutMap_writes_only_leaves {B} (k : kv B) (I : B → Prop) (s : schedule)
    (prefix : string) (data : gmap string Any) (b : B) :
  I b →
  (∀ w b0, I b0 →
     HasPrefix (Key w) (prefix +:+ "/") = true →
     (∃ p, get_path p (Map data) = Some (Str (Value w)) ∧
           Key w = path_key prefix p) →
     I (put k w b0).1) →
  I (PutMap k s prefix data b).1.
Proof.
  intros Hb Hput. rewrite PutMap_flatten. apply PutStr_each_invariant; [done|].
  intros w b0 (p & Hp & Hget & Hkey)%flatten_origin Hb0.
  apply Hput; [done| |by exists p]. rewrite Hkey. by apply path_key_HasPrefix.
Qed.

(** X8, witness: on a backend that stores, a key outside the prefix keeps
    its value. *)
Lemma PutMap_writes_only_leaves_witness :
  (PutMap store cluster_schedule "kv" cluster_tree {[ "other/x" := "keep" ]}).1
    !! "other/x" = Some "keep".
Proof.
  refine (PutMap_writes_only_leaves store (λ m, m !! "other/x" = Some "keep")
            cluster_schedule "kv" cluster_tree {[ "other/x" := "keep" ]}
            eq_refl _).
  intros w b0 Hb0 Hpre _.
  change ((<[Key w := Value w]> b0) !! "other/x" = Some "keep").
  rewrite lookup_insert_ne; [done|].
  intros Heq. rewrite Heq in Hpre. done.
Defined.

(** ** One write for each key *)

Lemma string_app_inv_l (a x y : string) : a +:+ x = a +:+ y → x = y.
Proof.
  induction a as [|c a IH]; [by rewrite !string_app_nil_l|].
  rewrite !string_app_cons. intros ?. simplify_eq. by apply IH.
Qed.

Lemma path_key_inj prefix p q :
  p ≠ [] → q ≠ [] →
  Forall (λ x, has_byte x "/" = false) p →
  Forall (λ x, has_byte x "/" = false) q →
  path_key prefix p = path_key prefix q → p = q.
Proof.
  destruct p as [|key p], q as [|key' q]; try done. intros _ _ Hp Hq.
  rewrite !path_key_slash. intros Heq%string_app_inv_l%string_app_inv_l.
  by rewrite <-(Split_path_key p key), <-(Split_path_key q key'), Heq.
Qed.

Lemma leaf_path_sep_free p : ∀ v w,
  keys_sep_free v = true → get_path p v = Some (Str w) →
  Forall (λ x, has_byte x "/" = false) p.
Proof.
  induction p as [|key p IH]; intros v w Hkeys Hget; [done|].
  destruct v as [|m| | |]; try done. rewrite get_path_cons in Hget.
  destruct (m !! key) as [x|] eqn:Hx; [|done]. simpl in Hget.
  destruct (tree_forall_lookup _ _ _ _ Hkeys Hx) as [Hkey Hkeys'].
  constructor; [by apply negb_true_iff in Hkey|]. by apply (IH x w).
Qed.

Lemma NoDup_leaf_keys prefix (data : gmap string Any) :
  (∀ p w, (p, w) ∈ leaves (Map data) → Forall (λ x, has_byte x "/" = false) p) →
  NoDup (Key <$> (leaf_entry prefix <$> leaves (Map data))).
Proof.
  intros Hfree. rewrite <-list_fmap_compose.
  assert (Heq : Key ∘ leaf_entry prefix <$> leaves (Map data)
                = path_key prefix <$> (leaves (Map data)).*1).
  { rewrite <-list_fmap_compose. apply list_fmap_ext. by intros _ [p w] _. }
  rewrite Heq. apply NoDup_fmap_2_strong; [|apply NoDup_leaf_paths].
  intros p q [[p' w] [-> Hp]]%list_elem_of_fmap [[q' w'] [-> Hq]]%list_elem_of_fmap.
  simpl. apply path_key_inj; [| |by eapply Hfree..].
  - intros ->. by apply elem_of_leaves in Hp.
  - intros ->. by apply elem_of_leaves in Hq.
Qed.

(** X9.  When no key of the data holds the separator, a run of [PutMap]
    writes no key of the backend twice. *)
Theorem PutMap_one_write_per_key (s : schedule) (prefix : string)
    (data : gmap string Any) :
  schedules s data →
  keys_sep_free (Map data) = true →
  NoDup (Key <$> (PutMap recorder s prefix data []).1).
Proof.
  intros Hs Hkeys. rewrite PutMap_recorder. simpl.
  pose proof (flatten_leaves s prefix (Map data) Hs) as Hflat. simpl in Hflat.
  rewrite Hflat. apply NoDup_leaf_keys.
  intros p w Hin%elem_of_leaves. by eapply leaf_path_sep_free.
Qed.

(** X9, witness: the run over the cluster tree. *)
Lemma PutMap_one_write_per_key_witness :
  NoDup (Key <$> (PutMap recorder cluster_schedule "kv" cluster_tree []).1).
Proof.
  exact (PutMap_one_write_per_key cluster_schedule "kv" cluster_tree
           eq_refl eq_refl).
Defined.

(** ** The round trip of any data *)

(** The entries a run wrote, split into segments again, are the string
    leaves of the data. *)
Lemma written_read_back (s : schedule) (prefix : string)
    (data : gmap string Any) (entries : list KVPair) :
  HasPrefix prefix " " = false → HasSuffix prefix "/" = false →
  keys_storable (Map data) = true →
  schedules s data →
  entries ≡ₚ flatten s prefix data →
  (λ e, (segments (normalize_offset prefix) e, Value e)) <$> entries
    ≡ₚ leaves (Map data).
Proof.
  intros Hspace Hslash Hkeys Hs Hperm.
  pose proof (flatten_leaves s prefix (Map data) Hs) as Hflat. simpl in Hflat.
  rewrite Hperm, Hflat, <-list_fmap_compose.
  match goal with |- ?l ≡ₚ _ => assert (l = leaves (Map data)) as ->; [|done] end.
  etrans; [|apply list_fmap_id].
  apply list_fmap_ext. intros _ [p w] Hin%list_elem_of_lookup_2. simpl.
  by destruct (leaf_entry_read_back prefix data p w) as [-> _].
Qed.

(** [ListMap] on entries whose paths and values are the string leaves of
    a value, none under an empty key. *)
Lemma ListMap_of_leaves {B} (k : kv B) (prefix offset : string) (b : B)
    (entries : list KVPair) (v : Any) :
  list_ k prefix b = inr entries →
  (λ e, (segments (normalize_offset offset) e, Value e)) <$> entries ≡ₚ leaves v →
  (∀ p w, (p, w) ∈ leaves v → "" ∉ p) →
  ∃ result, ListMap k prefix offset b = Returns (Some result) None ∧
    is_tree (Map result) = true ∧ compact (Map result) = true ∧
    ∀ q w, get_path q (Map result) = Some (Str w) ↔ get_path q v = Some (Str w).
Proof.
  intros Hlist Hpvs Hne.
  set (segs := segments (normalize_offset offset)) in *.
  assert (Hentry : ∀ e, e ∈ entries → (segs e, Value e) ∈ leaves v).
  { intros e He. rewrite <-Hpvs. apply list_elem_of_fmap. by exists e. }
  destruct (ListMap_prefix_free_spec k prefix offset b entries Hlist)
    as (result & Hret & Htree & Hcompact & Hmem).
  - fold segs. intros e He. by eapply Hne, Hentry.
  - fold segs. intros e e' He%Hentry%elem_of_leaves He'%Hentry%elem_of_leaves.
    by eapply leaf_paths_prefix_free.
  - exists result. split_and!; [done..|]. intros q w. rewrite Hmem. fold segs.
    rewrite last_value_NoDup.
    + by rewrite Hpvs, elem_of_leaves.
    + rewrite Hpvs. apply NoDup_leaf_paths.
Qed.

(** X10.  Let the prefix neither start with a space nor end with the
    separator, and let the keys of the data be non-empty, free of the
    separator and at a string not ending with a space; the data may hold
    numbers, booleans, nil and empty maps.  Then [ListMap] on the entries
    a run of [PutMap] wrote returns a tree of strings and maps without
    empty maps whose strings are those of the data, at the same paths:
    what the round trip loses is the values that are neither strings nor
    maps, and the maps that hold no string. *)
Theorem PutMap_ListMap_keeps_strings {B} (k : kv B) (s : schedule)
    (prefix : string) (data : gmap string Any) (entries : list KVPair) (b : B) :
  HasPrefix prefix " " = false →
  HasSuffix prefix "/" = false →
  keys_storable (Map data) = true →
  schedules s data →
  entries ≡ₚ (PutMap recorder s prefix data []).1 →
  list_ k prefix b = inr entries →
  ∃ result, ListMap k prefix prefix b = Returns (Some result) None ∧
    is_tree (Map result) = true ∧ compact (Map result) = true ∧
    ∀ q w, get_path q (Map result) = Some (Str w)
           ↔ get_path q (Map data) = Some (Str w).
Proof.
  intros Hspace Hslash Hkeys Hs Hperm Hlist.
  rewrite PutMap_recorder in Hperm. simpl in Hperm.
  apply (ListMap_of_leaves k prefix prefix b entries);
    [done|by eapply written_read_back|].
  intros p w Hin. by apply (leaf_entry_read_back prefix data p w).
Qed.

(** X10, witness: a record with a number and a boolean is written and
    read back. *)
Lemma PutMap_ListMap_keeps_strings_witness :
  ∃ result,
    ListMap recorder "kv" "kv" [mkKVPair "kv/name" "c1"]
      = Returns (Some result) None ∧
    is_tree (Map result) = true ∧ compact (Map result) = true ∧
    ∀ q w, get_path q (Map result) = Some (Str w)
           ↔ get_path q (Map node_record) = Some (Str w).
Proof.
  exact (PutMap_ListMap_keeps_strings recorder node_schedule "kv" node_record
           [mkKVPair "kv/name" "c1"] [mkKVPair "kv/name" "c1"]
           eq_refl eq_refl eq_refl eq_refl (Permutation_refl _) eq_refl).
Defined.

(** ** The round trip through a backend that stores *)

Lemma PutStr_each_store writes : ∀ m,
  PutStr_each store writes m
    = (foldl (λ m w, <[Key w := Value w]> m) m writes, None).
Proof. induction writes as [|w writes IH]; intros m; [done|]. apply IH. Qed.

Lemma store_lookup_other writes : ∀ (m : gmap string string) key,
  key ∉ Key <$> writes →
  foldl (λ m w, <[Key w := Value w]> m) m writes !! key = m !! key.
Proof.
  induction writes as [|w writes IH]; intros m key Hkey; [done|].
  rewrite fmap_cons, not_elem_of_cons in Hkey. destruct Hkey as [Hne Hkey].
  simpl. rewrite IH by done. by rewrite lookup_insert_ne.
Qed.

Lemma store_lookup_written writes : ∀ (m : gmap string string) w,
  NoDup (Key <$> writes) → w ∈ writes →
  foldl (λ m w, <[Key w := Value w]> m) m writes !! Key w = Some (Value w).
Proof.
  induction writes as [|w0 writes IH]; intros m w Hnd Hw.
  { by apply elem_of_nil in Hw. }
  rewrite fmap_cons in Hnd. apply NoDup_cons in Hnd as [Hfresh Hnd].
  apply elem_of_cons in Hw as [->|Hw]; simpl.
  - rewrite store_lookup_other by done. by rewrite lookup_insert_eq.
  - by apply IH.
Qed.

Lemma HasPrefix_app_l s a b :
  HasPrefix s (a +:+ b) = true → HasPrefix s a = true.
Proof.
  intros [r ->]%HasPrefix_inv. rewrite string_app_assoc. apply HasPrefix_app.
Qed.

(** What a store lists under a prefix after writes with distinct keys
    under that prefix, when it held nothing there before. *)
Lemma store_list_written prefix writes (m : gmap string string) :
  NoDup (Key <$> writes) →
  (∀ w, w ∈ writes → HasPrefix (Key w) prefix = true) →
  (∀ key, is_Some (m !! key) → HasPrefix key prefix = false) →
  ∃ entries,
    list_ store prefix (foldl (λ m w, <[Key w := Value w]> m) m writes)
      = inr entries ∧
    entries ≡ₚ writes.
Proof.
  intros Hnd Hunder Hfree. eexists. split; [done|].
  set (m' := foldl _ m writes).
  apply NoDup_Permutation.
  - apply NoDup_fmap_2; [|apply NoDup_filter, NoDup_map_to_list].
    intros [k1 v1] [k2 v2] ?. by simplify_eq/=.
  - apply (NoDup_fmap_1 Key). done.
  - intros [key value]. rewrite list_elem_of_fmap. split.
    + intros ([key' value'] & [= -> ->] & [Hpre Hin%elem_of_map_to_list]%list_elem_of_filter).
      simpl in *. destruct (decide (key' ∈ Key <$> writes)) as [Hk|Hk].
      * apply list_elem_of_fmap in Hk as (w & -> & Hw).
        unfold m' in Hin. rewrite store_lookup_written in Hin by done.
        destruct w. by simplify_eq/=.
      * unfold m' in Hin. rewrite store_lookup_other in Hin by done.
        rewrite Hfree in Hpre by done. done.
    + intros Hw. exists (key, value). split; [done|].
      apply list_elem_of_filter. split.
      * by apply (Hunder _ Hw).
      * apply elem_of_map_to_list.
        by apply (store_lookup_written writes m (mkKVPair key value)).
Qed.

(** X11.  Let the prefix neither start with a space nor end with the
    separator, and let the backend store and hold no key that starts with
    the prefix.  Then a run of [PutMap], under any schedule, on a tree of
    strings and maps with storable keys and no empty map below its root
    succeeds, [ListMap] with the prefix as its offset returns the tree from
    the backend the run leaves, and the keys that do not start with the
    prefix hold what they held. *)
Theorem PutMap_ListMap_store (s : schedule) (prefix : string)
    (T : gmap string Any) (m : gmap string string) :
  HasPrefix prefix " " = false →
  HasSuffix prefix "/" = false →
  is_tree (Map T) = true →
  compact (Map T) = true →
  keys_storable (Map T) = true →
  schedules s T →
  (∀ key, is_Some (m !! key) → HasPrefix key prefix = false) →
  ∃ m', PutMap store s prefix T m = (m', None) ∧
        ListMap store prefix prefix m' = Returns (Some T) None ∧
        ∀ key, HasPrefix key prefix = false → m' !! key = m !! key.
Proof.
  intros Hspace Hslash Htree Hcompact Hkeys Hs Hfree.
  rewrite PutMap_flatten, PutStr_each_store. eexists. split; [done|].
  pose proof (flatten_leaves s prefix (Map T) Hs) as Hflat. simpl in Hflat.
  assert (Hunder : ∀ w, w ∈ flatten s prefix T → HasPrefix (Key w) prefix = true).
  { intros w (p & Hp & _ & ->)%flatten_origin.
    by eapply HasPrefix_app_l, path_key_HasPrefix. }
  assert (Hnd : NoDup (Key <$> flatten s prefix T)).
  { rewrite Hflat. apply NoDup_leaf_keys. intros p w Hin%elem_of_leaves.
    destruct (leaf_path_storable p (Map T) w Hkeys Hin) as [Hall _].
    eapply Forall_impl; [done|]. by intros x [_ ?]. }
  split.
  - destruct (store_list_written prefix (flatten s prefix T) m)
      as (entries & Hlist & Hperm); [done..|].
    destruct (ListMap_of_leaves store prefix prefix _ entries (Map T) Hlist)
      as (result & -> & Htree' & Hcompact' & Hleaves).
    + by eapply written_read_back.
    + intros p w Hin. by apply (leaf_entry_read_back prefix T p w).
    + do 2 f_equal. by apply tree_ext.
  - intros key Hkey. apply store_lookup_other.
    intros (w & -> & Hw)%list_elem_of_fmap. by rewrite Hunder in Hkey.
Qed.

(** X11, witness: the cluster tree is written to a store that holds a key
    elsewhere, and read back. *)
Lemma PutMap_ListMap_store_witness :
  ∃ m', PutMap store cluster_schedule "trento/v0/clusters" cluster_tree
          {[ "other/x" := "keep" ]} = (m', None) ∧
        ListMap store "trento/v0/clusters" "trento/v0/clusters" m'
          = Returns (Some cluster_tree) None ∧
        ∀ key, HasPrefix key "trento/v0/clusters" = false →
               m' !! key = ({[ "other/x" := "keep" ]} : gmap string string) !! key.
Proof.
  refine (PutMap_ListMap_store cluster_schedule "trento/v0/clusters"
            cluster_tree {[ "other/x" := "keep" ]}
            eq_refl eq_refl eq_refl eq_refl eq_refl eq_refl _).
  intros key [value Hkey]. apply lookup_singleton_Some in Hkey as [<- _]. done.
Defined.

(** ** The order of the writes on a backend that stores *)

(** A store after writes with distinct keys depends on the writes up to
    their order only. *)
Lemma store_Permutation writes1 writes2 (m : gmap string string) :
  NoDup (Key <$> writes1) → writes1 ≡ₚ writes2 →
  foldl (λ m w, <[Key w := Value w]> m) m writes1
  = foldl (λ m w, <[Key w := Value w]> m) m writes2.
Proof.
  intros Hnd Hperm. apply map_eq. intros key.
  destruct (decide (key ∈ Key <$> writes1)) as [Hk|Hk].
  - apply list_elem_of_fmap in Hk as (w & -> & Hw).
    rewrite !store_lookup_written; [done| |by rewrite <-Hperm|done..].
    by rewrite <-Hperm.
  - rewrite !store_lookup_other; [done| |done]. by rewrite <-Hperm.
Qed.

(** X12.  When no key of the data holds the separator, what a run of
    [PutMap] leaves in a backend that stores does not depend on the order
    in which [range] yields the fields. *)
Theorem PutMap_store_any_order (s s' : schedule) (prefix : string)
    (data : gmap string Any) (m : gmap string string) :
  schedules s data → schedules s' data →
  keys_sep_free (Map data) = true →
  PutMap store s prefix data m = PutMap store s' prefix data m.
Proof.
  intros Hs Hs' Hkeys. rewrite !PutMap_flatten, !PutStr_each_store. f_equal.
  pose proof (flatten_leaves s prefix (Map data) Hs) as Hflat.
  pose proof (flatten_leaves s' prefix (Map data) Hs') as Hflat'.
  simpl in Hflat, Hflat'. apply store_Permutation.
  - rewrite Hflat. apply NoDup_leaf_keys.
    intros p w Hin%elem_of_leaves. by eapply leaf_path_sep_free.
  - by rewrite Hflat, Hflat'.
Qed.

(** X12, witness: the two orders of a map with two fields. *)
Lemma PutMap_store_any_order_witness :
  PutMap store (Range [("a", Range []); ("b", Range [])]) "kv" two_fields ∅
  = PutMap store (Range [("b", Range []); ("a", Range [])]) "kv" two_fields ∅.
Proof.
  exact (PutMap_store_any_order (Range [("a", Range []); ("b", Range [])])
           (Range [("b", Range []); ("a", Range [])]) "kv" two_fields ∅
           eq_refl eq_refl eq_refl).
Defined.

Lemma store_twice writes : ∀ (m : gmap string string),
  NoDup (Key <$> writes) →
  foldl (λ m w, <[Key w := Value w]> m)
    (foldl (λ m w, <[Key w := Value w]> m) m writes) writes
  = foldl (λ m w, <[Key w := Value w]> m) m writes.
Proof.
  intros m Hnd. apply map_eq. intros key.
  destruct (decide (key ∈ Key <$> writes)) as [Hk|Hk].
  - apply list_elem_of_fmap in Hk as (w & -> & Hw).
    by rewrite !store_lookup_written.
  - by rewrite !store_lookup_other.
Qed.

(** X13.  When no key of the data holds the separator, a second run of
    [PutMap] with the same data, under any order, leaves a backend that
    stores as the first run left it. *)
Theorem PutMap_store_again (s s' : schedule) (prefix : string)
    (data : gmap string Any) (m : gmap string string) :
  schedules s data → schedules s' data →
  keys_sep_free (Map data) = true →
  PutMap store s' prefix data (PutMap store s prefix data m).1
  = PutMap store s prefix data m.
Proof.
  intros Hs Hs' Hkeys. rewrite !PutMap_flatten, !PutStr_each_store. simpl.
  f_equal.
  pose proof (flatten_leaves s prefix (Map data) Hs) as Hflat.
  pose proof (flatten_leaves s' prefix (Map data) Hs') as Hflat'.
  simpl in Hflat, Hflat'.
  assert (Hnd : NoDup (Key <$> flatten s prefix data)).
  { rewrite Hflat. apply NoDup_leaf_keys.
    intros p w Hin%elem_of_leaves. by eapply leaf_path_sep_free. }
  rewrite (store_Permutation (flatten s' prefix data) (flatten s prefix data)).
  - by apply store_twice.
  - by rewrite Hflat', <-Hflat.
  - by rewrite Hflat', <-Hflat.
Qed.

(** X13, witness: the cluster tree written twice. *)
Lemma PutMap_store_again_witness :
  PutMap store cluster_schedule "kv" cluster_tree
    (PutMap store cluster_schedule "kv" cluster_tree ∅).1
  = PutMap store cluster_schedule "kv" cluster_tree ∅.
Proof.
  exact (PutMap_store_again cluster_schedule cluster_schedule "kv" cluster_tree ∅
           eq_refl eq_refl eq_refl).
Defined.
